(** * A side-scrolling platformer: the per-frame simulation step

    Shallow embedding of [src/index.tsx] (constants, entities, level
    data, the keyboard handlers, [update] and [draw]) together with the
    properties its specification states about it and further properties
    the code shows.

    Numbers.  The program computes with JavaScript numbers.  The canvas
    width and height are integers (the DOM keeps them so), the level
    coordinates are integers, and the constants are [0.5], [4], [-12] and
    [3000]; the step only adds, subtracts, negates, halves and compares.
    Every number it meets is thus a multiple of [0.5] and nothing is ever
    rounded, so the model computes with exact rationals, [Q].  Nothing
    below needs the canvas size to be an integer: every statement holds
    for any rational size.  Two rationals are compared with [==], the
    equality of [Q] as fractions. *)

From Stdlib Require Import QArith Qabs Lqa Bool List Lia String.
From stdpp Require Import base list.
Import ListNotations.

Local Open Scope Q_scope.

(** ** Comparisons, as boolean tests *)

Definition Qltb (a b : Q) : bool :=
  match a ?= b with Lt => true | _ => false end.

Definition Qleb (a b : Q) : bool := Qle_bool a b.

Infix "<?" := Qltb (at level 70, no associativity) : Q_scope.
Infix "<=?" := Qleb (at level 70, no associativity) : Q_scope.
Notation "a >? b" := (Qltb b a) (at level 70, only parsing) : Q_scope.
Notation "a >=? b" := (Qleb b a) (at level 70, only parsing) : Q_scope.

(** ** Game constants (src/index.tsx, lines 20-23) *)

Definition GRAVITY : Q := 1 # 2.
Definition PLAYER_SPEED : Q := 4.
Definition JUMP_FORCE : Q := -12.
Definition WORLD_WIDTH : Q := 3000.

(** ** Game state (lines 26-68)

    The three entity interfaces share the fields of [GameObject]; each
    lives in a module of its own so that the fields keep their names. *)

Module Canvas.
Record t : Type := mk { width : Q; height : Q }.
End Canvas.

Module Player.
Record t : Type := mk {
    x : Q; y : Q; width : Q; height : Q;
    vx : Q; vy : Q; isJumping : bool }.

Definition set_x (v : Q) (p : t) : t :=
    mk v (y p) (width p) (height p) (vx p) (vy p) (isJumping p).
Definition set_y (v : Q) (p : t) : t :=
    mk (x p) v (width p) (height p) (vx p) (vy p) (isJumping p).
Definition set_vx (v : Q) (p : t) : t :=
    mk (x p) (y p) (width p) (height p) v (vy p) (isJumping p).
Definition set_vy (v : Q) (p : t) : t :=
    mk (x p) (y p) (width p) (height p) (vx p) v (isJumping p).
Definition set_isJumping (b : bool) (p : t) : t :=
    mk (x p) (y p) (width p) (height p) (vx p) (vy p) b.
End Player.

Module Platform.
Record t : Type := mk { x : Q; y : Q; width : Q; height : Q }.
End Platform.

Module Enemy.
Record t : Type := mk {
    x : Q; y : Q; width : Q; height : Q;
    vx : Q; startX : Q; moveRange : Q }.

Definition set_x (v : Q) (e : t) : t :=
    mk v (y e) (width e) (height e) (vx e) (startX e) (moveRange e).
Definition set_vx (v : Q) (e : t) : t :=
    mk (x e) (y e) (width e) (height e) v (startX e) (moveRange e).
End Enemy.

Module Camera.
Record t : Type := mk { x : Q; y : Q }.
Definition set_x (v : Q) (c : t) : t := mk v (y c).
End Camera.

(** The held keys, read once per tick (lines 64-68). *)
Module Keys.
Record t : Type := mk { left : bool; right : bool; up : bool }.
Definition none : t := mk false false false.
End Keys.

(** The mutable globals [player], [platforms], [enemies] and [camera]. *)
Record Game : Type := mkGame {
  player : Player.t;
  platforms : list Platform.t;
  enemies : list Enemy.t;
  camera : Camera.t }.

Section Simulation.

(** The drawing surface is sized once, before the loop starts. *)
Variable canvas : Canvas.t.

(** ** Level data (lines 47-62, 72-102) *)

Definition initial_player : Player.t :=
  Player.mk 100 (Canvas.height canvas - 200) 40 60 0 0 true.

Definition createPlatforms : list Platform.t :=
  let h := Canvas.height canvas in
  [ Platform.mk 0 (h - 40) 800 40;
    Platform.mk 900 (h - 40) (WORLD_WIDTH - 900) 40;
    Platform.mk 200 (h - 150) 150 20;
    Platform.mk 500 (h - 250) 150 20;
    Platform.mk 800 (h - 350) 150 20;
    Platform.mk 400 (h - 450) 150 20;
    Platform.mk 1100 (h - 150) 200 20;
    Platform.mk 1400 (h - 250) 200 20;
    Platform.mk 1350 (h - 400) 150 20;
    Platform.mk 1700 (h - 350) 300 20;
    Platform.mk 2100 (h - 200) 100 20;
    Platform.mk 2250 (h - 350) 100 20;
    Platform.mk 2400 (h - 500) 100 20;
    Platform.mk 2600 (h - 100) 300 20 ].

Definition createEnemies : list Enemy.t :=
  let h := Canvas.height canvas in
  [ Enemy.mk 500 (h - 290) 40 40 1 500 70;
    Enemy.mk 1750 (h - 390) 40 40 (-1) 1700 220;
    Enemy.mk 2650 (h - 140) 40 40 2 2600 220 ].

(** The state [init] leaves behind before the first frame. *)
Definition init : Game :=
  mkGame initial_player createPlatforms createEnemies (Camera.mk 0 0).

(** ** [resetPlayer] (lines 141-146) *)

Definition resetPlayer (p : Player.t) : Player.t :=
  Player.set_isJumping true
    (Player.set_vy 0
      (Player.set_y (Canvas.height canvas - 100)
        (Player.set_x 100 p))).

(** ** [update] (lines 148-233), one phase per block of the source *)

(** Lines 150-156. *)
Definition horizontal_intent (k : Keys.t) (p : Player.t) : Player.t :=
  if Keys.left k then Player.set_vx (- PLAYER_SPEED) p
  else if Keys.right k then Player.set_vx PLAYER_SPEED p
  else Player.set_vx 0 p.

(** Lines 158-161. *)
Definition jump_intent (k : Keys.t) (p : Player.t) : Player.t :=
  if Keys.up k && negb (Player.isJumping p)
  then Player.set_isJumping true (Player.set_vy JUMP_FORCE p)
  else p.

(** Lines 163-165. *)
Definition integrate (p : Player.t) : Player.t :=
  let p1 := Player.set_x (Player.x p + Player.vx p) p in
  let p2 := Player.set_y (Player.y p1 + Player.vy p1) p1 in
  Player.set_vy (Player.vy p2 + GRAVITY) p2.

(** The condition of lines 171-177. *)
Definition catches (p : Player.t) (q : Platform.t) : bool :=
  (Player.vy p >=? 0)
  && (Player.x p + Player.width p >? Platform.x q)
  && (Player.x p <? Platform.x q + Platform.width q)
  && (Player.y p + Player.height p >? Platform.y q)
  && (Player.y p + Player.height p - Player.vy p <=? Platform.y q).

(** Lines 178-180. *)
Definition land (p : Player.t) (q : Platform.t) : Player.t :=
  Player.set_vy 0 (Player.set_y (Platform.y q - Player.height p) p).

(** The loop of lines 169-183; the second component is [onGround]. *)
Fixpoint platform_loop (p : Player.t) (qs : list Platform.t)
  : Player.t * bool :=
  match qs with
  | [] => (p, false)
  | q :: rest => if catches p q then (land p q, true) else platform_loop p rest
  end.

(** Lines 169-184. *)
Definition platform_collision (qs : list Platform.t) (p : Player.t)
  : Player.t :=
  let '(p', onGround) := platform_loop p qs in
  Player.set_isJumping (negb onGround) p'.

(** Lines 189-194. *)
Definition enemy_move (e : Enemy.t) : Enemy.t :=
  let e1 := Enemy.set_x (Enemy.x e + Enemy.vx e) e in
  if (Enemy.x e1 <? Enemy.startX e1)
     || (Enemy.x e1 + Enemy.width e1 >? Enemy.startX e1 + Enemy.moveRange e1)
  then Enemy.set_vx (Enemy.vx e1 * -1) e1
  else e1.

(** The bounding-box test of lines 197-202. *)
Definition overlaps (p : Player.t) (e : Enemy.t) : bool :=
  (Player.x p <? Enemy.x e + Enemy.width e)
  && (Player.x p + Player.width p >? Enemy.x e)
  && (Player.y p <? Enemy.y e + Enemy.height e)
  && (Player.y p + Player.height p >? Enemy.y e).

(** The stomp test of line 204. *)
Definition stomps (p : Player.t) (e : Enemy.t) : bool :=
  (Player.vy p >? 0)
  && (Player.y p + Player.height p - Player.vy p <=? Enemy.y e).

(** Line 206. *)
Definition bounce (p : Player.t) : Player.t :=
  Player.set_vy (JUMP_FORCE / 2) p.

(** The body of the loop of lines 187-211 at index [i].  The enemy is
    moved in place; [splice(i, 1)] is [delete i].  The loop only visits
    indices below the current length, so the [None] branch (where the
    source would fail on [undefined]) is never taken; see
    [enemy_iteration_in_range]. *)
Definition enemy_iteration (i : nat) (st : Player.t * list Enemy.t)
  : Player.t * list Enemy.t :=
  let '(p, es) := st in
  match es !! i with
  | None => st
  | Some e =>
      let e' := enemy_move e in
      let es' := <[i := e']> es in
      if overlaps p e' then
        if stomps p e' then (bounce p, delete i es')
        else (resetPlayer p, es')
      else (p, es')
  end.

(** [enemy_loop n] runs the iterations [n-1], [n-2], ..., [0]. *)
Fixpoint enemy_loop (n : nat) (st : Player.t * list Enemy.t)
  : Player.t * list Enemy.t :=
  match n with
  | O => st
  | S i => enemy_loop i (enemy_iteration i st)
  end.

(** Lines 187-211. *)
Definition enemy_phase (p : Player.t) (es : list Enemy.t)
  : Player.t * list Enemy.t :=
  enemy_loop (length es) (p, es).

(** Lines 214-216. *)
Definition left_boundary (p : Player.t) : Player.t :=
  if Player.x p <? 0 then Player.set_x 0 p else p.

(** Lines 220-222. *)
Definition fall_out (p : Player.t) : Player.t :=
  if Player.y p >? Canvas.height canvas then resetPlayer p else p.

(** Lines 226-232. *)
Definition camera_offset (p : Player.t) : Q :=
  let c0 := Player.x p - Canvas.width canvas / 2 + Player.width p / 2 in
  let c1 := if c0 <? 0 then 0 else c0 in
  if c1 + Canvas.width canvas >? WORLD_WIDTH
  then WORLD_WIDTH - Canvas.width canvas
  else c1.

(** The player as it enters the enemy loop (lines 150-184). *)
Definition player_phase (k : Keys.t) (g : Game) : Player.t :=
  platform_collision (platforms g)
    (integrate (jump_intent k (horizontal_intent k (player g)))).

(** One simulation tick. *)
Definition update (k : Keys.t) (g : Game) : Game :=
  let p1 := player_phase k g in
  let '(p2, es) := enemy_phase p1 (enemies g) in
  let p3 := fall_out (left_boundary p2) in
  mkGame p3 (platforms g) es (Camera.set_x (camera_offset p3) (camera g)).

(** [run ks g] feeds the key snapshots [ks], one per tick, and returns
    the sequence of states reached. *)
Fixpoint run (ks : list Keys.t) (g : Game) : list Game :=
  match ks with
  | [] => []
  | k :: rest => let g' := update k g in g' :: run rest g'
  end.

(** [ticks ks g] is the state after the last of those ticks. *)
Fixpoint ticks (ks : list Keys.t) (g : Game) : Game :=
  match ks with
  | [] => g
  | k :: rest => ticks rest (update k g)
  end.

End Simulation.

(** ** The frame loop (lines 267-271)

    [gameLoop g ks tr]: started in [g], the loop that runs [update] once
    per frame, reading the key snapshots [ks] in turn, goes through the
    states [tr].  ([draw] only reads the state.) *)
Inductive gameLoop (canvas : Canvas.t) : Game -> list Keys.t -> list Game -> Prop :=
| gameLoop_stop (g : Game) : gameLoop canvas g [] []
| gameLoop_frame (g g' : Game) (k : Keys.t) (ks : list Keys.t) (tr : list Game) :
    g' = update canvas k g ->
    gameLoop canvas g' ks tr ->
    gameLoop canvas g (k :: ks) (g' :: tr).

(** ** Notions of the specification *)


(** The states the game goes through: [init], then one [update] per
    frame, whatever the keys. *)
Inductive reachable (canvas : Canvas.t) : Game -> Prop :=
| reachable_init : reachable canvas (init canvas)
| reachable_update (k : Keys.t) (g : Game) :
    reachable canvas g -> reachable canvas (update canvas k g).

(** [n] successive moves of one enemy. *)
Fixpoint enemy_moves (n : nat) (e : Enemy.t) : Enemy.t :=
  match n with
  | O => e
  | S n' => enemy_move (enemy_moves n' e)
  end.

(** The first enemy of the level; only its height above the ground
    depends on the canvas. *)
Definition patroller (canvas : Canvas.t) : Enemy.t :=
  Enemy.mk 500 (Canvas.height canvas - 290) 40 40 1 500 70.

(** The bound of the specification on an enemy's position. *)
Definition in_patrol_bounds (e : Enemy.t) : Prop :=
  Enemy.startX e - Qabs (Enemy.vx e) <= Enemy.x e
  /\ Enemy.x e <= Enemy.startX e + Enemy.moveRange e + Qabs (Enemy.vx e).

(** The invariant behind it: the enemy fits in its range, its box is at
    most one step outside [[startX, startX + moveRange]], and when it is
    outside it is heading back. *)
Definition on_patrol (e : Enemy.t) : bool :=
  (0 <=? Enemy.width e)
  && (Enemy.width e <=? Enemy.moveRange e)
  && (Enemy.startX e - Qabs (Enemy.vx e) <=? Enemy.x e)
  && (Enemy.x e + Enemy.width e
      <=? Enemy.startX e + Enemy.moveRange e + Qabs (Enemy.vx e))
  && (negb (Enemy.x e <? Enemy.startX e) || (0 <? Enemy.vx e))
  && (negb (Enemy.startX e + Enemy.moveRange e <? Enemy.x e + Enemy.width e)
      || (Enemy.vx e <? 0)).

(** *** Standing still

    [stands_on canvas q p]: the bottom edge of [p] is flush with the top
    of platform [q], [p] overlaps [q] horizontally, and [p] is inside the
    world and the visible area. *)
Definition stands_on (canvas : Canvas.t) (q : Platform.t) (p : Player.t)
  : bool :=
  Qeq_bool (Player.y p + Player.height p) (Platform.y q)
  && (Platform.x q <? Player.x p + Player.width p)
  && (Player.x p <? Platform.x q + Platform.width q)
  && (0 <=? Player.x p)
  && (Player.y p <=? Canvas.height canvas).

(** No platform top lies within one gravity step of the top of [q],
    unless at the very same height. *)
Definition platform_clear (q q' : Platform.t) : bool :=
  Qeq_bool (Platform.y q') (Platform.y q)
  || (Platform.y q' <? Platform.y q - GRAVITY)
  || (Platform.y q + GRAVITY <=? Platform.y q').

(** Enemy [e] cannot reach a player standing where [p] is: it is above
    or below [p], or it patrols a stretch that ends before [p] or starts
    after it.  (An enemy never moves vertically.) *)
Definition keeps_clear (p : Player.t) (e : Enemy.t) : bool :=
  (Enemy.y e + Enemy.height e <=? Player.y p)
  || (Player.y p + Player.height p <=? Enemy.y e)
  || (on_patrol e
      && ((Player.x p + Player.width p
           <=? Enemy.startX e - Qabs (Enemy.vx e))
          || (Enemy.startX e + Enemy.moveRange e + Qabs (Enemy.vx e)
              <=? Player.x p))).

(** The player is at rest on platform [q], grounded, with nothing around
    that could move it. *)
Definition steady_rest (canvas : Canvas.t) (q : Platform.t) (g : Game)
  : bool :=
  negb (Player.isJumping (player g))
  && Qeq_bool (Player.vy (player g)) 0
  && stands_on canvas q (player g)
  && forallb (platform_clear q) (platforms g)
  && forallb (keeps_clear (player g)) (enemies g).

(** The two phases a resting player goes through, relative to the place
    [p0] where it stands: grounded with vy = 0, or flagged airborne with
    vy = GRAVITY after a tick in which no platform caught it. *)
Definition rest_phase (canvas : Canvas.t) (q : Platform.t) (p0 : Player.t)
    (airborne : bool) (g : Game) : Prop :=
  Player.x (player g) == Player.x p0
  /\ Player.y (player g) == Player.y p0
  /\ Player.width (player g) == Player.width p0
  /\ Player.height (player g) == Player.height p0
  /\ Player.vy (player g) == (if airborne then GRAVITY else 0)
  /\ Player.isJumping (player g) = airborne
  /\ stands_on canvas q p0 = true
  /\ q ∈ platforms g
  /\ Forall (fun q' => platform_clear q q' = true) (platforms g)
  /\ Forall (fun e => keeps_clear p0 e = true) (enemies g).

(** The player stands at the spawn point of [resetPlayer]. *)
Definition at_spawn (canvas : Canvas.t) (p : Player.t) : Prop :=
  Player.x p = 100 /\ Player.y p = Canvas.height canvas - 100
  /\ Player.vy p = 0 /\ Player.isJumping p = true.

(** The key snapshot [k] with the jump key released. *)
Definition release_up (k : Keys.t) : Keys.t :=
  Keys.mk (Keys.left k) (Keys.right k) false.

(** The clamp of the specification: a value below the interval goes to
    its lower end, a value above it to its upper end. *)
Definition clamp (lo hi v : Q) : Q :=
  if v <? lo then lo else if hi <? v then hi else v.

(** ** A concrete scene

    The canvas of a 1280 x 720 window ([0.9] of each side). *)
Definition canvas720 : Canvas.t := Canvas.mk 1152 648.

(** The level on that canvas, with the player as given. *)
Definition level720 (p : Player.t) : Game :=
  mkGame p (createPlatforms canvas720) (createEnemies canvas720)
    (Camera.mk 0 0).

(** The first ground platform there; its top is at 648 - 40 = 608. *)
Definition ground720 : Platform.t := Platform.mk 0 (648 - 40) 800 40.

(** At rest on the ground: bottom edge 548 + 60 = 608, grounded. *)
Definition resting_player : Player.t := Player.mk 100 548 40 60 0 0 false.


(** Coming down on the first enemy (top at 358, box 501 to 541 once
    moved): bottom edge at 360, and at 355 one step of vy = 5 earlier. *)
Definition stomping_player : Player.t := Player.mk 510 300 40 60 0 5 true.

(** Walking into the same enemy from its left, on the same level. *)
Definition bumping_player : Player.t := Player.mk 470 338 40 60 4 0 false.

(** Falling onto the first enemy: after the move of the tick its bottom
    edge is at 360 with vy = 5.5, so it was at 354.5 before, above the
    enemy's top at 358. *)
Definition diving_player : Player.t := Player.mk 510 295 40 60 0 5 true.

(** The level with a second enemy standing in the first one's way, put
    before it in the collection (so visited after it). *)
Definition crowded720 : Game :=
  mkGame diving_player (createPlatforms canvas720)
    [ Enemy.mk 520 340 40 40 (-1) 500 70; patroller canvas720 ]
    (Camera.mk 0 0).

(** Keys that take the player from [init] to the first enemy: wait for
    the landing, jump to the right onto the first floating platform,
    walk to its right end, jump to the right again. *)
Definition stomp_plan : list Keys.t :=
  repeat Keys.none 21
  ++ Keys.mk false true true :: repeat (Keys.mk false true false) 61
  ++ Keys.mk false true true :: repeat (Keys.mk false true false) 30.

(** The canvas of a 3840 x 2160 window: wider than the world. *)
Definition canvas4k : Canvas.t := Canvas.mk 3456 1944.

(** What a tick leaves of the player, in lowest terms:
    (x, y, vy, isJumping). *)
Definition snapshot (g : Game) : Q * Q * Q * bool :=
  (Qred (Player.x (player g)), Qred (Player.y (player g)),
   Qred (Player.vy (player g)), Player.isJumping (player g)).

(** ** Keyboard handlers (lines 104-139)

    The key names a [switch] groups under one flag. *)
Definition left_keys : list string := ["ArrowLeft"%string; "a"%string].
Definition right_keys : list string := ["ArrowRight"%string; "d"%string].
Definition up_keys : list string :=
  ["ArrowUp"%string; "w"%string; " "%string].

(** [e.key] is one of the labels of a [case] group. *)
Definition key_among (key : string) (names : list string) : bool :=
  existsb (String.eqb key) names.

(** [handleKeyDown]: the new flags, and whether [e.preventDefault()] was
    called. *)
Definition handleKeyDown (key : string) (keys : Keys.t) : Keys.t * bool :=
  if key_among key left_keys
  then (Keys.mk true (Keys.right keys) (Keys.up keys), false)
  else if key_among key right_keys
  then (Keys.mk (Keys.left keys) true (Keys.up keys), false)
  else if key_among key up_keys
  then (Keys.mk (Keys.left keys) (Keys.right keys) true, true)
  else (keys, false).

Definition handleKeyUp (key : string) (keys : Keys.t) : Keys.t :=
  if key_among key left_keys
  then Keys.mk false (Keys.right keys) (Keys.up keys)
  else if key_among key right_keys
  then Keys.mk (Keys.left keys) false (Keys.up keys)
  else if key_among key up_keys
  then Keys.mk (Keys.left keys) (Keys.right keys) false
  else keys.

(** Two key names that one [case] group binds to the same flag. *)
Definition same_control (k1 k2 : string) : bool :=
  existsb (fun names => key_among k1 names && key_among k2 names)
    [left_keys; right_keys; up_keys].

(** Only the jump key held. *)
Definition jump_key : Keys.t := Keys.mk false false true.

(** ** [draw] (lines 235-265)

    [draw] talks to the 2D context only; it is modelled by the calls it
    makes, in order. *)
Inductive CanvasOp : Type :=
| ctx_save
| ctx_restore
| ctx_clearRect (x y w h : Q)
| ctx_fillStyle (color : string)
| ctx_fillRect (x y w h : Q)
| ctx_translate (dx dy : Q).

Definition draw (canvas : Canvas.t) (g : Game) : list CanvasOp :=
  [ ctx_save;
    ctx_clearRect 0 0 (Canvas.width canvas) (Canvas.height canvas);
    ctx_fillStyle "#87CEEB";
    ctx_fillRect 0 0 (Canvas.width canvas) (Canvas.height canvas);
    ctx_translate (- Camera.x (camera g)) 0;
    ctx_fillStyle "#FF0000";
    ctx_fillRect (Player.x (player g)) (Player.y (player g))
      (Player.width (player g)) (Player.height (player g));
    ctx_fillStyle "#654321" ]
  ++ map (fun q => ctx_fillRect (Platform.x q) (Platform.y q)
                     (Platform.width q) (Platform.height q))
       (platforms g)
  ++ [ ctx_fillStyle "#8A2BE2" ]
  ++ map (fun e => ctx_fillRect (Enemy.x e) (Enemy.y e)
                     (Enemy.width e) (Enemy.height e))
       (enemies g)
  ++ [ ctx_restore ].

(** The part of the 2D context those calls act on: the origin of the
    coordinate system (only translations are ever applied), the fill
    colour, and the stack that [save] and [restore] use. *)
Record Ctx : Type := mkCtx {
  origin_x : Q;
  origin_y : Q;
  fillStyle : string;
  saved : list (Q * Q * string) }.

(** What reaches the canvas, in canvas coordinates. *)
Inductive Mark : Type :=
| cleared (x y w h : Q)
| filled (color : string) (x y w h : Q).

Definition ctx_call (c : Ctx) (op : CanvasOp) : Ctx * list Mark :=
  match op with
  | ctx_save =>
      (mkCtx (origin_x c) (origin_y c) (fillStyle c)
         ((origin_x c, origin_y c, fillStyle c) :: saved c), [])
  | ctx_restore =>
      match saved c with
      | [] => (c, [])
      | (ox, oy, col) :: rest => (mkCtx ox oy col rest, [])
      end
  | ctx_clearRect x y w h =>
      (c, [cleared (origin_x c + x) (origin_y c + y) w h])
  | ctx_fillStyle col =>
      (mkCtx (origin_x c) (origin_y c) col (saved c), [])
  | ctx_fillRect x y w h =>
      (c, [filled (fillStyle c) (origin_x c + x) (origin_y c + y) w h])
  | ctx_translate dx dy =>
      (mkCtx (origin_x c + dx) (origin_y c + dy) (fillStyle c) (saved c), [])
  end.

Fixpoint ctx_calls (c : Ctx) (ops : list CanvasOp) : Ctx * list Mark :=
  match ops with
  | [] => (c, [])
  | op :: rest =>
      let '(c1, m1) := ctx_call c op in
      let '(c2, m2) := ctx_calls c1 rest in
      (c2, m1 ++ m2)
  end.


(** ** The enemy loop as one pass

    What one iteration does with the enemy it visits: the player it
    leaves, and the enemy if it stays. *)
Definition enemy_visit (canvas : Canvas.t) (p : Player.t) (e : Enemy.t)
  : Player.t * option Enemy.t :=
  let e' := enemy_move e in
  if overlaps p e' then
    if stomps p e' then (bounce p, None)
    else (resetPlayer canvas p, Some e')
  else (p, Some e').

(** A single pass over the collection, last enemy first. *)
Fixpoint enemy_sweep (canvas : Canvas.t) (p : Player.t) (es : list Enemy.t)
  : Player.t * list Enemy.t :=
  match es with
  | [] => (p, [])
  | e :: rest =>
      let '(p1, rest') := enemy_sweep canvas p rest in
      match enemy_visit canvas p1 e with
      | (p2, Some e') => (p2, e' :: rest')
      | (p2, None) => (p2, rest')
      end
  end.

(** ** Free flight: [n] integration steps in a row *)
Definition free_flight (n : nat) (p : Player.t) : Player.t :=
  Nat.iter n integrate p.

(** The number of a tick, as a rational. *)
Definition Qnat (n : nat) : Q := inject_Z (Z.of_nat n).

(** A player of the level's size standing at the spawn point. *)
Definition spawn_box (canvas : Canvas.t) : Player.t :=
  Player.mk 100 (Canvas.height canvas - 100) 40 60 0 0 true.

(** The first ground platform of the level. *)
Definition ground (canvas : Canvas.t) : Platform.t :=
  Platform.mk 0 (Canvas.height canvas - 40) 800 40.

(** What holds of the game in every state it reaches: the level's
    platforms, a player 40 by 60, and enemies that cannot reach the
    spawn point. *)
Definition level_state (canvas : Canvas.t) (g : Game) : Prop :=
  platforms g = createPlatforms canvas
  /\ Player.width (player g) = 40
  /\ Player.height (player g) = 60
  /\ Forall (fun e => keeps_clear (spawn_box canvas) e = true) (enemies g).

(** The stretch of the x axis an enemy's box stays in while it patrols
    (see [on_patrol]). *)
Definition lane_lo (e : Enemy.t) : Q :=
  Enemy.startX e - Qabs (Enemy.vx e).
Definition lane_hi (e : Enemy.t) : Q :=
  Enemy.startX e + Enemy.moveRange e + Qabs (Enemy.vx e).

(** Two enemies patrol stretches more than a player's width [w] apart. *)
Definition lanes_apart (w : Q) (a b : Enemy.t) : Prop :=
  lane_hi a + w <= lane_lo b \/ lane_hi b + w <= lane_lo a.

(** What holds of the enemies and the player in every state the game
    reaches: the player is 40 wide, every enemy is on patrol and above
    the bottom of the canvas, and any two enemies patrol stretches more
    than 40 apart. *)
Definition arena (canvas : Canvas.t) (g : Game) : Prop :=
  Player.width (player g) = 40
  /\ Forall (fun e => on_patrol e = true
                      /\ Enemy.y e + Enemy.height e <= Canvas.height canvas)
       (enemies g)
  /\ ForallOrdPairs (lanes_apart 40) (enemies g).

(** The velocity with which the player enters the move of a tick. *)
Definition takeoff (k : Keys.t) (g : Game) : Player.t :=
  jump_intent k (horizontal_intent k (player g)).

(** * Properties *)

(** ** The boolean comparisons decide the orders of [Q] *)

Lemma Qltb_lt (a b : Q) : (a <? b) = true <-> a < b.
Proof.
  unfold Qltb. rewrite Qlt_alt. destruct (a ?= b); split; congruence.
Qed.

Lemma Qltb_ge (a b : Q) : (a <? b) = false <-> b <= a.
Proof.
  rewrite <- not_true_iff_false, Qltb_lt. split.
  - apply Qnot_lt_le.
  - intros Hle Hlt. exact (Qlt_not_le _ _ Hlt Hle).
Qed.

Lemma Qleb_le (a b : Q) : (a <=? b) = true <-> a <= b.
Proof. apply Qle_bool_iff. Qed.

Lemma Qleb_gt (a b : Q) : (a <=? b) = false <-> b < a.
Proof.
  rewrite <- not_true_iff_false, Qleb_le. split.
  - apply Qnot_le_lt.
  - intros Hlt Hle. exact (Qlt_not_le _ _ Hlt Hle).
Qed.

(** [qprop] turns every boolean test among the hypotheses into the order
    fact it decides; [qcases] first splits on the tests of the goal. *)
Ltac qprop :=
  repeat match goal with
  | H : (_ && _) = true |- _ => apply andb_true_iff in H; destruct H
  | H : (_ || _) = false |- _ => apply orb_false_iff in H; destruct H
  | H : negb _ = true |- _ => apply negb_true_iff in H
  | H : negb _ = false |- _ => apply negb_false_iff in H
  | H : Qeq_bool _ _ = true |- _ => apply Qeq_bool_iff in H
  | H : (_ <? _) = true |- _ => apply Qltb_lt in H
  | H : (_ <? _) = false |- _ => apply Qltb_ge in H
  | H : (_ <=? _) = true |- _ => apply Qleb_le in H
  | H : (_ <=? _) = false |- _ => apply Qleb_gt in H
  end.

Ltac qcases :=
  repeat match goal with
  | |- context [ ?a <? ?b ] => destruct (a <? b) eqn:?
  | |- context [ ?a <=? ?b ] => destruct (a <=? b) eqn:?
  end;
  qprop.

(** [qtrue] proves a conjunction of tests from the order facts at hand. *)
Ltac qtrue :=
  rewrite ?andb_true_iff; repeat split;
  first [ apply Qltb_lt | apply Qleb_le ]; simpl; lra.

Section Properties.

Variable canvas : Canvas.t.

Local Abbreviation H := (Canvas.height canvas).
Local Abbreviation W := (Canvas.width canvas).

(** ** Shape of the state after a tick *)

Lemma update_player (k : Keys.t) (g : Game) :
  player (update canvas k g)
  = fall_out canvas (left_boundary
      (fst (enemy_phase canvas (player_phase k g) (enemies g)))).
Proof.
  unfold update. destruct (enemy_phase canvas _ _) as [p2 es]. reflexivity.
Qed.

Lemma update_enemies (k : Keys.t) (g : Game) :
  enemies (update canvas k g)
  = snd (enemy_phase canvas (player_phase k g) (enemies g)).
Proof.
  unfold update. destruct (enemy_phase canvas _ _) as [p2 es]. reflexivity.
Qed.

Lemma update_platforms (k : Keys.t) (g : Game) :
  platforms (update canvas k g) = platforms g.
Proof.
  unfold update. destruct (enemy_phase canvas _ _) as [p2 es]. reflexivity.
Qed.

Lemma update_camera (k : Keys.t) (g : Game) :
  Camera.x (camera (update canvas k g))
  = camera_offset canvas (player (update canvas k g)).
Proof.
  unfold update. destruct (enemy_phase canvas _ _) as [p2 es]. reflexivity.
Qed.

(** ** Camera *)

Lemma camera_offset_clamp (p : Player.t) :
  W <= WORLD_WIDTH ->
  camera_offset canvas p
  == clamp 0 (WORLD_WIDTH - W) (Player.x p - W / 2 + Player.width p / 2).
Proof.
  intros Hw. unfold camera_offset, clamp.
  set (c0 := Player.x p - W / 2 + Player.width p / 2).
  qcases; lra.
Qed.

Lemma camera_offset_range (p : Player.t) :
  W <= WORLD_WIDTH ->
  0 <= camera_offset canvas p <= WORLD_WIDTH - W.
Proof.
  intros Hw. unfold camera_offset.
  set (c0 := Player.x p - W / 2 + Player.width p / 2).
  qcases; lra.
Qed.

(** C5, as the code has it.  With a world at least as wide as the
    viewport (what the comment on [WORLD_WIDTH] intends: "make the world
    wider than the canvas"), the
    camera offset stored at the end of a tick is
    [player.x - viewport_width/2 + player.width/2] clamped to
    [[0, WORLD_WIDTH - viewport_width]], and so lies in that interval
    whatever the player's x is. *)
Theorem camera_follows_clamped (k : Keys.t) (g : Game) :
  W <= WORLD_WIDTH ->
  let g' := update canvas k g in
  Camera.x (camera g')
  == clamp 0 (WORLD_WIDTH - W)
       (Player.x (player g') - W / 2 + Player.width (player g') / 2)
  /\ 0 <= Camera.x (camera g') <= WORLD_WIDTH - W
  /\ forall p : Player.t, 0 <= camera_offset canvas p <= WORLD_WIDTH - W.
Proof.
  intros Hw g'. subst g'. rewrite update_camera.
  split; [ apply camera_offset_clamp; exact Hw | ].
  split; [ apply camera_offset_range; exact Hw | ].
  intros p. apply camera_offset_range. exact Hw.
Qed.

(** ** Left boundary *)

(** C6.  Whatever the state and the keys, the tick ends with
    [player.x >= 0]. *)
Theorem player_x_nonneg (k : Keys.t) (g : Game) :
  0 <= Player.x (player (update canvas k g)).
Proof.
  rewrite update_player.
  set (p2 := fst (enemy_phase canvas (player_phase k g) (enemies g))).
  unfold fall_out, left_boundary, resetPlayer.
  qcases; simpl in *; lra.
Qed.

(** ** Invariants of the enemy loop *)

Lemma enemy_loop_S (i : nat) (st : Player.t * list Enemy.t) :
  enemy_loop canvas (S i) st
  = enemy_loop canvas i (enemy_iteration canvas i st).
Proof. reflexivity. Qed.

(** Index [i] is in range when the loop reaches it, and the indices
    below it still are afterwards. *)
Lemma enemy_iteration_in_range (i : nat) (p : Player.t)
    (es : list Enemy.t) :
  (S i <= length es)%nat ->
  is_Some (es !! i)
  /\ (i <= length (snd (enemy_iteration canvas i (p, es))))%nat.
Proof.
  intros Hi. assert (is_Some (es !! i)) as Hsome.
  { apply lookup_lt_is_Some. lia. }
  split; [ exact Hsome | ]. destruct Hsome as [e He].
  unfold enemy_iteration. rewrite He.
  destruct (overlaps p (enemy_move e)); [ | simpl; rewrite length_insert; lia ].
  destruct (stomps p (enemy_move e)); simpl.
  - rewrite length_delete, length_insert; [ lia | ].
    apply lookup_lt_is_Some. rewrite length_insert. lia.
  - rewrite length_insert. lia.
Qed.

Lemma enemy_iteration_player (P : Player.t -> Prop) (i : nat)
    (p : Player.t) (es : list Enemy.t) :
  P p -> P (bounce p) -> P (resetPlayer canvas p) ->
  P (fst (enemy_iteration canvas i (p, es))).
Proof.
  intros Hp Hb Hr. unfold enemy_iteration.
  destruct (es !! i) as [e|]; [ | exact Hp ].
  destruct (overlaps p (enemy_move e)); [ | exact Hp ].
  destruct (stomps p (enemy_move e)); assumption.
Qed.

Lemma enemy_loop_player (P : Player.t -> Prop) :
  (forall p, P p -> P (bounce p)) ->
  (forall p, P p -> P (resetPlayer canvas p)) ->
  forall (n : nat) (p : Player.t) (es : list Enemy.t),
    P p -> P (fst (enemy_loop canvas n (p, es))).
Proof.
  intros Hb Hr n. induction n as [|i IH]; intros p es Hp; [ exact Hp | ].
  rewrite enemy_loop_S.
  destruct (enemy_iteration canvas i (p, es)) as [p' es'] eqn:E.
  apply IH. change p' with (fst (p', es')). rewrite <- E.
  apply enemy_iteration_player; auto.
Qed.

Lemma enemy_iteration_enemies (R : Enemy.t -> Prop) (i : nat)
    (p : Player.t) (es : list Enemy.t) :
  (forall e, R e -> R (enemy_move e)) ->
  Forall R es -> Forall R (snd (enemy_iteration canvas i (p, es))).
Proof.
  intros Hm Hes. unfold enemy_iteration.
  destruct (es !! i) as [e|] eqn:Ei; [ | exact Hes ].
  assert (R (enemy_move e)) as He.
  { apply Hm. eapply Forall_lookup_1; eauto. }
  assert (Forall R (<[i := enemy_move e]> es)) as Hins.
  { apply Forall_insert; assumption. }
  destruct (overlaps p (enemy_move e)); [ | exact Hins ].
  destruct (stomps p (enemy_move e)); simpl; [ | exact Hins ].
  apply Forall_delete. exact Hins.
Qed.

Lemma enemy_loop_enemies (R : Enemy.t -> Prop) :
  (forall e, R e -> R (enemy_move e)) ->
  forall (n : nat) (p : Player.t) (es : list Enemy.t),
    Forall R es -> Forall R (snd (enemy_loop canvas n (p, es))).
Proof.
  intros Hm n. induction n as [|i IH]; intros p es Hes; [ exact Hes | ].
  rewrite enemy_loop_S.
  destruct (enemy_iteration canvas i (p, es)) as [p' es'] eqn:E.
  apply IH. change es' with (snd (p', es')). rewrite <- E.
  apply enemy_iteration_enemies; auto.
Qed.

(** ** Reset to spawn *)



Lemma hit_resets (i : nat) (p : Player.t) (es : list Enemy.t) (e : Enemy.t) :
  es !! i = Some e ->
  overlaps p (enemy_move e) = true ->
  stomps p (enemy_move e) = false ->
  enemy_iteration canvas i (p, es)
  = (resetPlayer canvas p, <[i := enemy_move e]> es).
Proof.
  intros Hi Ho Hs. unfold enemy_iteration. rewrite Hi, Ho, Hs. reflexivity.
Qed.


(** ** The frame loop and [run] *)

Lemma gameLoop_run (g : Game) (ks : list Keys.t) (tr : list Game) :
  gameLoop canvas g ks tr -> tr = run canvas ks g.
Proof.
  induction 1 as [g | g g' k ks tr Hg' _ IH]; [ reflexivity | ].
  simpl. rewrite <- Hg', <- IH. reflexivity.
Qed.

Lemma run_gameLoop (ks : list Keys.t) (g : Game) :
  gameLoop canvas g ks (run canvas ks g).
Proof.
  revert g. induction ks as [|k ks IH]; intros g; simpl.
  - constructor.
  - econstructor; [ reflexivity | apply IH ].
Qed.

Lemma run_length (ks : list Keys.t) (g : Game) :
  length (run canvas ks g) = length ks.
Proof.
  revert g. induction ks as [|k ks IH]; intros g; simpl; [ | rewrite IH ];
    reflexivity.
Qed.

(** ** Jump intent *)

Lemma horizontal_intent_vertical (k : Keys.t) (p : Player.t) :
  Player.y (horizontal_intent k p) = Player.y p
  /\ Player.vy (horizontal_intent k p) = Player.vy p
  /\ Player.isJumping (horizontal_intent k p) = Player.isJumping p.
Proof.
  unfold horizontal_intent.
  destruct (Keys.left k), (Keys.right k); repeat split.
Qed.

Lemma horizontal_intent_release_up (k : Keys.t) (p : Player.t) :
  horizontal_intent (release_up k) p = horizontal_intent k p.
Proof. reflexivity. Qed.

(** A rising player is caught by no platform. *)
Lemma platform_loop_rising (p : Player.t) (qs : list Platform.t) :
  Player.vy p < 0 -> platform_loop p qs = (p, false).
Proof.
  intros Hv. induction qs as [|q qs IH]; [ reflexivity | ].
  simpl. unfold catches at 1.
  apply Qleb_gt in Hv. rewrite Hv. simpl. exact IH.
Qed.

Lemma left_boundary_isJumping (p : Player.t) :
  Player.isJumping (left_boundary p) = Player.isJumping p.
Proof. unfold left_boundary. destruct (Player.x p <? 0); reflexivity. Qed.

Lemma fall_out_isJumping (p : Player.t) :
  Player.isJumping p = true -> Player.isJumping (fall_out canvas p) = true.
Proof.
  intros Hp. unfold fall_out. destruct (H <? Player.y p); [ reflexivity | exact Hp ].
Qed.

Lemma jump_ends_airborne (k : Keys.t) (g : Game) :
  Keys.up k = true ->
  Player.isJumping (player g) = false ->
  Player.isJumping (player (update canvas k g)) = true.
Proof.
  intros Hup Hg. rewrite update_player.
  apply fall_out_isJumping. rewrite left_boundary_isJumping.
  unfold enemy_phase.
  apply (enemy_loop_player (fun p => Player.isJumping p = true));
    [ intros p Hp; exact Hp | reflexivity | ].
  unfold player_phase, platform_collision.
  rewrite platform_loop_rising; [ reflexivity | ].
  destruct (horizontal_intent_vertical k (player g)) as (_ & _ & Hj).
  unfold jump_intent. rewrite Hj, Hg, Hup. simpl.
  unfold JUMP_FORCE, GRAVITY. lra.
Qed.

(** C4.  With the up key held at the start of a tick: if the player is
    grounded ([isJumping] false from the previous tick) the jump step
    sets vy to exactly [JUMP_FORCE] and [isJumping] to true, the move of
    that tick uses it, and the tick ends airborne; if the player is
    already airborne the jump key changes nothing: vy is untouched and
    the whole tick is the one with the key released. *)
Theorem jump_only_when_grounded (k : Keys.t) (g : Game) :
  Keys.up k = true ->
  (Player.isJumping (player g) = false ->
     let p := jump_intent k (horizontal_intent k (player g)) in
     Player.vy p = JUMP_FORCE
     /\ Player.isJumping p = true
     /\ Player.y (integrate p) = Player.y (player g) + JUMP_FORCE
     /\ Player.isJumping (player (update canvas k g)) = true)
  /\ (Player.isJumping (player g) = true ->
     Player.vy (jump_intent k (horizontal_intent k (player g)))
     = Player.vy (player g)
     /\ update canvas k g = update canvas (release_up k) g).
Proof.
  intros Hup.
  destruct (horizontal_intent_vertical k (player g)) as (Hy & Hv & Hj).
  split; intros Hg.
  - unfold jump_intent. rewrite Hj, Hg, Hup. simpl.
    rewrite Hy. repeat split. apply jump_ends_airborne; assumption.
  - assert (forall k', jump_intent k' (horizontal_intent k (player g))
                       = horizontal_intent k (player g)) as Hskip.
    { intros k'. unfold jump_intent. rewrite Hj, Hg, andb_false_r.
      reflexivity. }
    split; [ rewrite Hskip; exact Hv | ].
    unfold update, player_phase.
    rewrite horizontal_intent_release_up, !Hskip. reflexivity.
Qed.

(** ** Stomp or hit *)

Lemma delete_insert_same (i : nat) (e : Enemy.t) (es : list Enemy.t) :
  delete i (<[i := e]> es) = delete i es.
Proof.
  revert i. induction es as [|e0 es IH]; intros [|i]; simpl;
    [ reflexivity | reflexivity | reflexivity | ].
  f_equal. apply IH.
Qed.

Lemma stomps_true (p : Player.t) (e : Enemy.t) :
  stomps p e = true
  <-> 0 < Player.vy p /\ Player.y p + Player.height p - Player.vy p <= Enemy.y e.
Proof.
  unfold stomps. rewrite andb_true_iff, Qltb_lt, Qleb_le. reflexivity.
Qed.

Lemma stomps_false (p : Player.t) (e : Enemy.t) :
  stomps p e = false
  <-> Player.vy p <= 0 \/ Enemy.y e < Player.y p + Player.height p - Player.vy p.
Proof.
  unfold stomps. rewrite andb_false_iff, Qltb_ge, Qleb_gt. reflexivity.
Qed.

(** Once at the spawn point the player stays there for the rest of the
    enemy loop: with vy = 0 no overlap is a stomp. *)
Lemma enemy_loop_at_spawn (n : nat) (p : Player.t) (es : list Enemy.t) :
  at_spawn canvas p -> at_spawn canvas (fst (enemy_loop canvas n (p, es))).
Proof.
  revert p es. induction n as [|i IH]; intros p es Hp; [ exact Hp | ].
  rewrite enemy_loop_S.
  destruct (enemy_iteration canvas i (p, es)) as [p' es'] eqn:E.
  apply IH. unfold enemy_iteration in E.
  destruct (es !! i) as [e|]; [ | congruence ].
  destruct (overlaps p (enemy_move e)); [ | congruence ].
  assert (stomps p (enemy_move e) = false) as Hs.
  { apply stomps_false. left. destruct Hp as (_ & _ & -> & _). lra. }
  rewrite Hs in E. injection E as <- _. repeat split.
Qed.

Lemma at_spawn_end_of_tick (p : Player.t) :
  at_spawn canvas p -> at_spawn canvas (fall_out canvas (left_boundary p)).
Proof.
  intros (Hx & Hy & Hv & Hj). unfold fall_out, left_boundary.
  rewrite Hx. change (100 <? 0) with false.
  destruct (H <? Player.y p); repeat split; assumption.
Qed.

(** One iteration of the enemy loop.  Where the player's box overlaps
    the (moved) enemy's box: if vy > 0 and [y + height - vy] is at or above the
    enemy's top, the enemy is removed from the collection and vy becomes
    [JUMP_FORCE / 2]; otherwise (vy <= 0, or the earlier bottom edge below
    the enemy's top) the player is reset, x = 100, the enemy stays in the
    collection, and the player is still at the spawn point when the tick
    ends. *)
Theorem stomp_or_hit (i : nat) (p : Player.t) (es : list Enemy.t)
    (e : Enemy.t) :
  es !! i = Some e ->
  overlaps p (enemy_move e) = true ->
  let e' := enemy_move e in
  let st' := enemy_iteration canvas i (p, es) in
  (0 < Player.vy p /\ Player.y p + Player.height p - Player.vy p <= Enemy.y e' ->
     st' = (bounce p, delete i es)
     /\ Player.vy (fst st') = JUMP_FORCE / 2
     /\ length (snd st') = pred (length es))
  /\ (Player.vy p <= 0 \/ Enemy.y e' < Player.y p + Player.height p - Player.vy p ->
     st' = (resetPlayer canvas p, <[i := e']> es)
     /\ Player.x (fst st') = 100
     /\ snd st' !! i = Some e'
     /\ length (snd st') = length es
     /\ forall (n : nat) (es2 : list Enemy.t),
         at_spawn canvas
           (fall_out canvas
              (left_boundary (fst (enemy_loop canvas n (fst st', es2)))))).
Proof.
  intros Hi Ho e' st'. subst e' st'.
  pose proof (lookup_lt_Some _ _ _ Hi) as Hlt.
  split; intros Hc.
  - apply stomps_true in Hc.
    unfold enemy_iteration. rewrite Hi, Ho, Hc, delete_insert_same.
    repeat split. simpl. rewrite length_delete; [ lia | eauto ].
  - apply stomps_false in Hc.
    rewrite (hit_resets i p es e Hi Ho Hc). simpl.
    split; [ reflexivity | ]. split; [ reflexivity | ].
    split; [ apply list_lookup_insert_eq; exact Hlt | ].
    split; [ apply length_insert | ].
    intros n es2. apply at_spawn_end_of_tick, enemy_loop_at_spawn.
    repeat split.
Qed.

(** ** Enemy patrol *)

Lemma Qabs_cases (q : Q) :
  (0 <= q /\ Qabs q == q) \/ (q < 0 /\ Qabs q == - q).
Proof.
  destruct (Qlt_le_dec q 0) as [Hneg | Hpos].
  - right. split; [ exact Hneg | ]. apply Qabs_neg. lra.
  - left. split; [ exact Hpos | ]. apply Qabs_pos. exact Hpos.
Qed.

Lemma on_patrol_spec (e : Enemy.t) :
  on_patrol e = true <->
  0 <= Enemy.width e <= Enemy.moveRange e
  /\ Enemy.startX e - Qabs (Enemy.vx e) <= Enemy.x e
  /\ Enemy.x e + Enemy.width e
     <= Enemy.startX e + Enemy.moveRange e + Qabs (Enemy.vx e)
  /\ (Enemy.startX e <= Enemy.x e \/ 0 < Enemy.vx e)
  /\ (Enemy.x e + Enemy.width e <= Enemy.startX e + Enemy.moveRange e
      \/ Enemy.vx e < 0).
Proof.
  unfold on_patrol.
  rewrite !andb_true_iff, !orb_true_iff, !negb_true_iff,
    !Qleb_le, !Qltb_lt, !Qltb_ge.
  tauto.
Qed.

Lemma enemy_move_on_patrol (e : Enemy.t) :
  on_patrol e = true -> on_patrol (enemy_move e) = true.
Proof.
  rewrite !on_patrol_spec. intros ((Hw0 & Hw) & Hlo & Hhi & Hl & Hr).
  unfold enemy_move. cbn [Enemy.set_x Enemy.x Enemy.startX Enemy.moveRange
    Enemy.width Enemy.vx].
  destruct (Qabs_cases (Enemy.vx e)) as [[Hs Ha] | [Hs Ha]];
    destruct (Qabs_cases (Enemy.vx e * -1)) as [[Hs' Ha'] | [Hs' Ha']];
    destruct (Enemy.x e + Enemy.vx e <? Enemy.startX e) eqn:E1;
    destruct (Enemy.startX e + Enemy.moveRange e
              <? Enemy.x e + Enemy.vx e + Enemy.width e) eqn:E2;
    qprop;
    cbn [orb Enemy.set_vx Enemy.set_x Enemy.x Enemy.startX Enemy.moveRange
      Enemy.width Enemy.vx];
    destruct Hl as [Hl | Hl]; destruct Hr as [Hr | Hr];
    try lra;
    (split; [ lra | ]); (split; [ lra | ]); (split; [ lra | ]);
    (split; [ first [ left; lra | right; lra ] | ]);
    first [ left; lra | right; lra ].
Qed.

Lemma on_patrol_in_bounds (e : Enemy.t) :
  on_patrol e = true -> in_patrol_bounds e.
Proof.
  rewrite on_patrol_spec. intros ((Hw0 & Hw) & Hlo & Hhi & _).
  unfold in_patrol_bounds. lra.
Qed.

Lemma createEnemies_on_patrol :
  Forall (fun e => on_patrol e = true) (createEnemies canvas).
Proof. repeat constructor. Qed.

Lemma reachable_on_patrol (g : Game) :
  reachable canvas g -> Forall (fun e => on_patrol e = true) (enemies g).
Proof.
  induction 1 as [| k g _ IH]; [ apply createEnemies_on_patrol | ].
  rewrite update_enemies. unfold enemy_phase.
  apply enemy_loop_enemies; [ apply enemy_move_on_patrol | exact IH ].
Qed.

(** C7.  In every state the game reaches, every enemy of the collection
    has its position within
    [[startX - |vx|, startX + moveRange + |vx|]]. *)
Theorem enemies_stay_in_patrol_bounds (g : Game) :
  reachable canvas g -> Forall in_patrol_bounds (enemies g).
Proof.
  intros Hg. eapply Forall_impl; [ apply reachable_on_patrol; exact Hg | ].
  intros e. apply on_patrol_in_bounds.
Qed.

(** ** Enemy reversal *)

Lemma enemy_move_rule (e : Enemy.t) :
  Enemy.x (enemy_move e) = Enemy.x e + Enemy.vx e
  /\ (Enemy.x e + Enemy.vx e < Enemy.startX e
      \/ Enemy.startX e + Enemy.moveRange e
         < Enemy.x e + Enemy.vx e + Enemy.width e ->
      Enemy.vx (enemy_move e) = Enemy.vx e * -1)
  /\ (Enemy.startX e <= Enemy.x e + Enemy.vx e
      /\ Enemy.x e + Enemy.vx e + Enemy.width e
         <= Enemy.startX e + Enemy.moveRange e ->
      Enemy.vx (enemy_move e) = Enemy.vx e).
Proof.
  unfold enemy_move.
  cbn [Enemy.set_x Enemy.x Enemy.startX Enemy.moveRange Enemy.width Enemy.vx].
  destruct (Enemy.x e + Enemy.vx e <? Enemy.startX e) eqn:E1;
    destruct (Enemy.startX e + Enemy.moveRange e
              <? Enemy.x e + Enemy.vx e + Enemy.width e) eqn:E2;
    qprop; cbn; (split; [ reflexivity | ]); split; intros Hc;
    try reflexivity; exfalso; lra.
Qed.

Lemma inject_nat_bounds (n m : nat) :
  (n <= m)%nat ->
  0 <= inject_Z (Z.of_nat n) <= inject_Z (Z.of_nat m).
Proof.
  intros Hn. split.
  - change 0 with (inject_Z 0). rewrite <- Zle_Qle. lia.
  - rewrite <- Zle_Qle. lia.
Qed.

Lemma inject_nat_succ (n : nat) :
  inject_Z (Z.of_nat (S n)) == inject_Z (Z.of_nat n) + 1.
Proof.
  rewrite Nat2Z.inj_succ. unfold Z.succ. rewrite inject_Z_plus. reflexivity.
Qed.

(** The first enemy of the level walks right, one unit a tick, for its
    first thirty moves. *)
Lemma patroller_advances (n : nat) :
  (n <= 30)%nat ->
  Enemy.x (enemy_moves n (patroller canvas)) == 500 + inject_Z (Z.of_nat n)
  /\ Enemy.vx (enemy_moves n (patroller canvas)) = 1
  /\ Enemy.width (enemy_moves n (patroller canvas)) = 40
  /\ Enemy.startX (enemy_moves n (patroller canvas)) = 500
  /\ Enemy.moveRange (enemy_moves n (patroller canvas)) = 70.
Proof.
  induction n as [|n IH]; intros Hn.
  - repeat split.
  - destruct IH as (Hx & Hv & Hw & Hs & Hm); [ lia | ].
    pose proof (inject_nat_bounds n 29 ltac:(lia)) as Hb.
    pose proof (inject_nat_succ n) as Hsucc.
    change (inject_Z (Z.of_nat 29)) with 29 in Hb.
    cbn [enemy_moves]. set (e := enemy_moves n (patroller canvas)) in *.
    destruct (enemy_move_rule e) as (Hx' & _ & Hkeep).
    rewrite Hx', Hv, Hw, Hs, Hm in *.
    rewrite Hkeep by lra.
    split; [ lra | ]. split; [ reflexivity | ].
    unfold enemy_move. cbn [Enemy.set_x Enemy.x Enemy.startX Enemy.moveRange
      Enemy.width Enemy.vx].
    destruct (_ || _); cbn; auto.
Qed.

(** C3, as the code has it.  An enemy reverses exactly when, after its
    position update, its leading edge is strictly beyond
    [startX + moveRange] or its position is strictly below [startX].
    The level's enemy with startX = 500, moveRange = 70, vx = 1, starting
    at x = 500, keeps vx = 1 for thirty moves, up to x + width = 570
    included, and turns at the thirty-first, where x + width = 571. *)
Theorem enemy_reverses_beyond_range :
  (forall e : Enemy.t,
      Enemy.x (enemy_move e) = Enemy.x e + Enemy.vx e
      /\ (Enemy.x e + Enemy.vx e < Enemy.startX e
          \/ Enemy.startX e + Enemy.moveRange e
             < Enemy.x e + Enemy.vx e + Enemy.width e ->
          Enemy.vx (enemy_move e) = Enemy.vx e * -1)
      /\ (Enemy.startX e <= Enemy.x e + Enemy.vx e
          /\ Enemy.x e + Enemy.vx e + Enemy.width e
             <= Enemy.startX e + Enemy.moveRange e ->
          Enemy.vx (enemy_move e) = Enemy.vx e))
  /\ createEnemies canvas !! 0%nat = Some (patroller canvas)
  /\ (forall n : nat, (n <= 30)%nat ->
        Enemy.x (enemy_moves n (patroller canvas))
        == 500 + inject_Z (Z.of_nat n)
        /\ Enemy.vx (enemy_moves n (patroller canvas)) = 1)
  /\ Enemy.x (enemy_moves 31 (patroller canvas)) == 531
  /\ 570 < Enemy.x (enemy_moves 31 (patroller canvas))
           + Enemy.width (enemy_moves 31 (patroller canvas))
  /\ Enemy.vx (enemy_moves 31 (patroller canvas)) == -1.
Proof.
  split; [ exact enemy_move_rule | ].
  split; [ reflexivity | ].
  split.
  { intros n Hn. destruct (patroller_advances n Hn) as (Hx & Hv & _).
    split; assumption. }
  repeat split.
Qed.

(** ** Standing still *)

(** [fields] computes the projections of updated records. *)
Ltac fields :=
  cbn [integrate land bounce
       Player.set_x Player.set_y Player.set_vx Player.set_vy
       Player.set_isJumping
       Player.x Player.y Player.width Player.height Player.vx Player.vy
       Player.isJumping
       Enemy.set_x Enemy.set_vx Enemy.x Enemy.y Enemy.width Enemy.height
       Enemy.vx Enemy.startX Enemy.moveRange fst snd] in *.

Lemma forallb_Forall {A : Type} (f : A -> bool) (l : list A) :
  forallb f l = true -> Forall (fun a => f a = true) l.
Proof.
  induction l as [|a l IH]; simpl; intros Hl; [ constructor | ].
  apply andb_true_iff in Hl. destruct Hl as [Ha Hl].
  constructor; [ exact Ha | apply IH; exact Hl ].
Qed.

Lemma platform_clear_spec (q q' : Platform.t) :
  platform_clear q q' = true <->
  Platform.y q' == Platform.y q
  \/ Platform.y q' < Platform.y q - GRAVITY
  \/ Platform.y q + GRAVITY <= Platform.y q'.
Proof.
  unfold platform_clear.
  rewrite !orb_true_iff, Qeq_bool_iff, Qltb_lt, Qleb_le. tauto.
Qed.

Lemma keeps_clear_spec (p : Player.t) (e : Enemy.t) :
  keeps_clear p e = true <->
  Enemy.y e + Enemy.height e <= Player.y p
  \/ Player.y p + Player.height p <= Enemy.y e
  \/ (on_patrol e = true
      /\ (Player.x p + Player.width p <= Enemy.startX e - Qabs (Enemy.vx e)
          \/ Enemy.startX e + Enemy.moveRange e + Qabs (Enemy.vx e)
             <= Player.x p)).
Proof.
  unfold keeps_clear.
  rewrite !orb_true_iff, andb_true_iff, orb_true_iff, !Qleb_le. tauto.
Qed.

Lemma enemy_move_fixed (e : Enemy.t) :
  Enemy.y (enemy_move e) = Enemy.y e
  /\ Enemy.height (enemy_move e) = Enemy.height e
  /\ Enemy.width (enemy_move e) = Enemy.width e
  /\ Enemy.startX (enemy_move e) = Enemy.startX e
  /\ Enemy.moveRange (enemy_move e) = Enemy.moveRange e.
Proof. unfold enemy_move. destruct (_ || _); repeat split. Qed.

Lemma enemy_move_speed (e : Enemy.t) :
  Qabs (Enemy.vx (enemy_move e)) == Qabs (Enemy.vx e).
Proof.
  unfold enemy_move. destruct (_ || _); fields; [ | reflexivity ].
  destruct (Qabs_cases (Enemy.vx e)) as [[? ?] | [? ?]];
    destruct (Qabs_cases (Enemy.vx e * -1)) as [[? ?] | [? ?]]; lra.
Qed.

Lemma keeps_clear_move (p : Player.t) (e : Enemy.t) :
  keeps_clear p e = true -> keeps_clear p (enemy_move e) = true.
Proof.
  rewrite !keeps_clear_spec.
  destruct (enemy_move_fixed e) as (-> & -> & _ & -> & ->).
  pose proof (enemy_move_speed e) as Hs.
  intros [Hc | [Hc | [Hp Hc]]]; [ tauto | tauto | ].
  right. right. split; [ apply enemy_move_on_patrol; exact Hp | ].
  destruct Hc; [ left | right ]; lra.
Qed.

Lemma keeps_clear_no_overlap (p0 p : Player.t) (e : Enemy.t) :
  Player.x p == Player.x p0 -> Player.y p == Player.y p0 ->
  Player.width p == Player.width p0 -> Player.height p == Player.height p0 ->
  keeps_clear p0 e = true -> overlaps p e = false.
Proof.
  intros Hx Hy Hw Hh Hc. apply keeps_clear_spec in Hc.
  destruct (overlaps p e) eqn:E; [ exfalso | reflexivity ].
  unfold overlaps in E. qprop.
  destruct Hc as [Hc | [Hc | [Hp Hc]]]; [ lra | lra | ].
  apply on_patrol_spec in Hp. destruct Hp as ((? & ?) & ? & ? & _).
  destruct Hc; lra.
Qed.

(** Enemies that cannot reach the player leave it untouched. *)
Lemma enemy_loop_untouched (R : Enemy.t -> Prop) (p : Player.t) :
  (forall e, R e -> R (enemy_move e)) ->
  (forall e, R e -> overlaps p e = false) ->
  forall (n : nat) (es : list Enemy.t),
    Forall R es ->
    fst (enemy_loop canvas n (p, es)) = p
    /\ Forall R (snd (enemy_loop canvas n (p, es))).
Proof.
  intros Hm Ho n. induction n as [|i IH]; intros es Hes; [ split; auto | ].
  rewrite enemy_loop_S.
  assert (exists es', enemy_iteration canvas i (p, es) = (p, es')
                      /\ Forall R es') as (es' & -> & Hes').
  { unfold enemy_iteration. destruct (es !! i) as [e|] eqn:Ei; [ | eauto ].
    assert (R (enemy_move e)) as He.
    { apply Hm. eapply Forall_lookup_1; eauto. }
    rewrite (Ho _ He). eexists. split; [ reflexivity | ].
    apply Forall_insert; assumption. }
  apply IH. exact Hes'.
Qed.

Lemma platform_loop_no_catch (p : Player.t) (qs : list Platform.t) :
  Forall (fun q => catches p q = false) qs -> platform_loop p qs = (p, false).
Proof.
  induction 1 as [| q qs Hq _ IH]; [ reflexivity | ].
  simpl. rewrite Hq. exact IH.
Qed.

(** The loop lands the player on the first platform that catches it. *)
Lemma platform_loop_catch (p : Player.t) (qs : list Platform.t)
    (q : Platform.t) :
  q ∈ qs -> catches p q = true ->
  exists q', q' ∈ qs /\ catches p q' = true
             /\ platform_loop p qs = (land p q', true).
Proof.
  induction qs as [|q0 qs IH]; intros Hin Hc.
  - apply elem_of_nil in Hin. contradiction.
  - simpl. destruct (catches p q0) eqn:E0.
    + exists q0. split; [ left | ]. split; [ exact E0 | reflexivity ].
    + apply elem_of_cons in Hin. destruct Hin as [-> | Hin]; [ congruence | ].
      destruct (IH Hin Hc) as (q' & Hq' & Hc' & Hl).
      exists q'. split; [ right; exact Hq' | ]. split; assumption.
Qed.

(** A tick in which no enemy reaches the player and the player ends
    inside the world keeps the player the platform phase produced. *)
Lemma update_quiet (k : Keys.t) (g : Game) (p0 : Player.t) :
  let p1 := player_phase k g in
  Player.x p1 == Player.x p0 -> Player.y p1 == Player.y p0 ->
  Player.width p1 == Player.width p0 ->
  Player.height p1 == Player.height p0 ->
  0 <= Player.x p0 -> Player.y p0 <= H ->
  Forall (fun e => keeps_clear p0 e = true) (enemies g) ->
  player (update canvas k g) = p1
  /\ Forall (fun e => keeps_clear p0 e = true) (enemies (update canvas k g)).
Proof.
  intros p1 Hx Hy Hw Hh Hx0 Hy0 Hen.
  rewrite update_player, update_enemies. fold p1. unfold enemy_phase.
  destruct (enemy_loop_untouched (fun e => keeps_clear p0 e = true) p1
              (keeps_clear_move p0)
              (fun e => keeps_clear_no_overlap p0 p1 e Hx Hy Hw Hh)
              (length (enemies g)) (enemies g) Hen) as [-> Hes].
  split; [ | exact Hes ].
  unfold left_boundary, fall_out.
  assert ((Player.x p1 <? 0) = false) as -> by (apply Qltb_ge; lra).
  assert ((H <? Player.y p1) = false) as -> by (apply Qltb_ge; lra).
  reflexivity.
Qed.

Lemma player_phase_idle (g : Game) :
  player_phase Keys.none g
  = platform_collision (platforms g)
      (integrate (Player.set_vx 0 (player g))).
Proof. reflexivity. Qed.

(** Grounded and flush: gravity is added, the platform test wants the
    bottom edge strictly below the top, so nothing catches the player. *)
Lemma rest_tick (q : Platform.t) (p0 : Player.t) (g : Game) :
  rest_phase canvas q p0 false g ->
  rest_phase canvas q p0 true (update canvas Keys.none g).
Proof.
  intros (Hx & Hy & Hw & Hh & Hv & Hj & Hst & Hq & Hpl & Hen).
  pose proof Hst as Hst'. unfold stands_on in Hst'. qprop.
  set (pa := integrate (Player.set_vx 0 (player g))).
  assert (platform_loop pa (platforms g) = (pa, false)) as Hloop.
  { apply platform_loop_no_catch. eapply Forall_impl; [ exact Hpl | ].
    intros q' Hc. cbv beta in Hc. apply platform_clear_spec in Hc.
    destruct (catches pa q') eqn:E; [ exfalso | reflexivity ].
    unfold catches in E. subst pa. fields. qprop.
    unfold GRAVITY in *. destruct Hc as [Hc | [Hc | Hc]]; lra. }
  assert (player_phase Keys.none g = Player.set_isJumping true pa) as Hph.
  { rewrite player_phase_idle. fold pa. unfold platform_collision.
    rewrite Hloop. reflexivity. }
  destruct (update_quiet Keys.none g p0) as [Hp Hes];
    try (rewrite Hph; subst pa; fields; lra); try assumption.
  unfold rest_phase. rewrite Hp, Hph, update_platforms.
  subst pa. fields.
  repeat split; try assumption; try reflexivity; lra.
Qed.

(** Flagged airborne, half a step below the top: the platform catches
    the player and puts it back. *)
Lemma hover_tick (q : Platform.t) (p0 : Player.t) (g : Game) :
  rest_phase canvas q p0 true g ->
  rest_phase canvas q p0 false (update canvas Keys.none g).
Proof.
  intros (Hx & Hy & Hw & Hh & Hv & Hj & Hst & Hq & Hpl & Hen).
  pose proof Hst as Hst'. unfold stands_on in Hst'. qprop.
  set (pa := integrate (Player.set_vx 0 (player g))).
  assert (catches pa q = true) as Hcq.
  { unfold catches. subst pa. fields. unfold GRAVITY in *. qtrue. }
  destruct (platform_loop_catch pa (platforms g) q Hq Hcq)
    as (q' & Hq' & Hc' & Hloop).
  assert (Platform.y q' == Platform.y q) as Hsame.
  { pose proof (proj1 (Forall_forall _ _) Hpl q' Hq') as Hc.
    cbv beta in Hc. apply platform_clear_spec in Hc.
    unfold catches in Hc'. subst pa. fields. qprop.
    unfold GRAVITY in *. destruct Hc as [Hc | [Hc | Hc]]; lra. }
  assert (player_phase Keys.none g
          = Player.set_isJumping false (land pa q')) as Hph.
  { rewrite player_phase_idle. fold pa. unfold platform_collision.
    rewrite Hloop. reflexivity. }
  destruct (update_quiet Keys.none g p0) as [Hp Hes];
    try (rewrite Hph; subst pa; fields; lra); try assumption.
  unfold rest_phase. rewrite Hp, Hph, update_platforms.
  subst pa. fields.
  repeat split; try assumption; try reflexivity; lra.
Qed.


Lemma steady_rest_phase (j : nat) (q : Platform.t) (g : Game) :
  platforms g !! j = Some q ->
  steady_rest canvas q g = true ->
  rest_phase canvas q (player g) false g.
Proof.
  intros Hj Hs. unfold steady_rest in Hs. qprop.
  unfold rest_phase. repeat split; try reflexivity; try assumption.
  - eapply list_elem_of_lookup_2. exact Hj.
  - apply forallb_Forall. assumption.
  - apply forallb_Forall. assumption.
Qed.


End Properties.

(** ** The reversal is one frame later than "at the bound" *)

(** C3 as stated fails: after its thirtieth move the level's first enemy
    has its leading edge at 570 for the first time, and it has not
    turned. *)
Lemma enemy_at_range_end_keeps_direction :
  Enemy.x (enemy_moves 29 (patroller canvas720))
  + Enemy.width (enemy_moves 29 (patroller canvas720)) < 570
  /\ 570 <= Enemy.x (enemy_moves 30 (patroller canvas720))
            + Enemy.width (enemy_moves 30 (patroller canvas720))
  /\ ~ Enemy.vx (enemy_moves 30 (patroller canvas720)) == -1.
Proof.
  split; [ reflexivity | ]. split; vm_compute; intros; discriminate.
Qed.

(** ** Worked instances on the 1152 x 648 canvas *)

(** [qcompute] settles a comparison of two concrete rationals. *)
Ltac qcompute :=
  vm_compute; first [ reflexivity | discriminate | intros; discriminate ].

(** C1 on the code.  The player at rest on the ground, no key held, ten
    ticks: the position stays (100, 548), but vy and isJumping do not
    stay at 0 and false; they alternate, starting with (1/2, true). *)
Theorem rest_on_ground_flickers :
  map snapshot
    (run canvas720 (repeat Keys.none 10) (level720 resting_player))
  = [ (100, 548, 1 # 2, true); (100, 548, 0, false);
      (100, 548, 1 # 2, true); (100, 548, 0, false);
      (100, 548, 1 # 2, true); (100, 548, 0, false);
      (100, 548, 1 # 2, true); (100, 548, 0, false);
      (100, 548, 1 # 2, true); (100, 548, 0, false) ].
Proof. vm_compute. reflexivity. Qed.

(** One iteration at work: the first enemy of the level is stomped by a
    player coming down on it, and sends back to x = 100 a player that
    walks into it. *)
Lemma stomp_or_hit_witness :
  enemy_iteration canvas720 0
    (stomping_player, createEnemies canvas720)
  = (bounce stomping_player, delete 0%nat (createEnemies canvas720))
  /\ Player.x (fst (enemy_iteration canvas720 0
                      (bumping_player, createEnemies canvas720))) = 100.
Proof.
  split.
  - apply (stomp_or_hit canvas720 0 stomping_player
             (createEnemies canvas720) (patroller canvas720));
      [ reflexivity | reflexivity | split; qcompute ].
  - apply (stomp_or_hit canvas720 0 bumping_player
             (createEnemies canvas720) (patroller canvas720));
      [ reflexivity | reflexivity | left; qcompute ].
Defined.

(** Thirty moves in, the first enemy is at x = 530 and still walks
    right. *)
Lemma enemy_reverses_beyond_range_witness :
  Enemy.x (enemy_moves 30 (patroller canvas720))
  == 500 + inject_Z (Z.of_nat 30)
  /\ Enemy.vx (enemy_moves 30 (patroller canvas720)) = 1.
Proof.
  apply (enemy_reverses_beyond_range canvas720). lia.
Defined.

(** The up key held: a jump from the ground, and no effect in the air
    ([init] starts airborne). *)
Lemma jump_only_when_grounded_witness :
  Player.vy (jump_intent (Keys.mk false false true)
               (horizontal_intent (Keys.mk false false true)
                  (player (level720 resting_player)))) = JUMP_FORCE
  /\ update canvas720 (Keys.mk false false true) (init canvas720)
     = update canvas720 (release_up (Keys.mk false false true))
         (init canvas720).
Proof.
  split.
  - apply (jump_only_when_grounded canvas720 (Keys.mk false false true)
             (level720 resting_player)); reflexivity.
  - apply (jump_only_when_grounded canvas720 (Keys.mk false false true)
             (init canvas720)); reflexivity.
Defined.

(** The camera after the first frame. *)
Lemma camera_follows_clamped_witness :
  0 <= Camera.x (camera (update canvas720 Keys.none (init canvas720)))
    <= WORLD_WIDTH - Canvas.width canvas720.
Proof.
  apply (camera_follows_clamped canvas720 Keys.none (init canvas720)).
  qcompute.
Defined.

(** The enemies after the first frame. *)
Lemma enemies_stay_in_patrol_bounds_witness :
  Forall in_patrol_bounds
    (enemies (update canvas720 (Keys.mk false true false) (init canvas720))).
Proof.
  apply (enemies_stay_in_patrol_bounds canvas720).
  apply reachable_update. apply reachable_init.
Defined.



(** * Further properties of the program *)

Section Further.

Variable canvas : Canvas.t.

Local Abbreviation H := (Canvas.height canvas).
Local Abbreviation W := (Canvas.width canvas).

(** ** The enemy loop visits every enemy once, last first *)

Lemma enemy_iteration_visit (i : nat) (p : Player.t) (es : list Enemy.t)
    (e : Enemy.t) :
  es !! i = Some e ->
  enemy_iteration canvas i (p, es)
  = match enemy_visit canvas p e with
    | (p', Some e') => (p', <[i := e']> es)
    | (p', None) => (p', delete i es)
    end.
Proof.
  intros Hi. unfold enemy_iteration, enemy_visit. rewrite Hi.
  destruct (overlaps p (enemy_move e)); [ | reflexivity ].
  destruct (stomps p (enemy_move e)); [ | reflexivity ].
  rewrite delete_insert_same. reflexivity.
Qed.

Lemma enemy_sweep_snoc (p : Player.t) (l : list Enemy.t) (e : Enemy.t) :
  enemy_sweep canvas p (l ++ [e])
  = let '(p1, r) := enemy_visit canvas p e in
    let '(p2, l') := enemy_sweep canvas p1 l in
    (p2, l' ++ match r with Some e' => [e'] | None => [] end).
Proof.
  induction l as [|a l IH]; simpl.
  - destruct (enemy_visit canvas p e) as [p1 [e'|]]; reflexivity.
  - rewrite IH. destruct (enemy_visit canvas p e) as [p1 r].
    destruct (enemy_sweep canvas p1 l) as [p2 l'].
    destruct (enemy_visit canvas p2 a) as [p3 [a'|]]; reflexivity.
Qed.

Lemma enemy_loop_sweep (pre : list Enemy.t) :
  forall (suf : list Enemy.t) (p : Player.t),
    enemy_loop canvas (length pre) (p, pre ++ suf)
    = let '(p', pre') := enemy_sweep canvas p pre in (p', pre' ++ suf).
Proof.
  induction pre as [|e l IH] using rev_ind; intros suf p; [ reflexivity | ].
  rewrite length_app, Nat.add_1_r, enemy_loop_S, <- app_assoc.
  cbn [app].
  rewrite (enemy_iteration_visit (length l) p (l ++ e :: suf) e)
    by (apply list_lookup_middle; reflexivity).
  rewrite enemy_sweep_snoc.
  destruct (enemy_visit canvas p e) as [p1 [e'|]].
  - replace (<[length l := e']> (l ++ e :: suf)) with (l ++ e' :: suf).
    + rewrite IH. destruct (enemy_sweep canvas p1 l) as [p2 l'].
      rewrite <- app_assoc. reflexivity.
    + replace (length l) with (length l + 0)%nat by lia.
      rewrite insert_app_r. reflexivity.
  - rewrite delete_middle, IH.
    destruct (enemy_sweep canvas p1 l) as [p2 l'].
    rewrite app_nil_r. reflexivity.
Qed.

Lemma enemy_phase_sweep (p : Player.t) (es : list Enemy.t) :
  enemy_phase canvas p es = enemy_sweep canvas p es.
Proof.
  unfold enemy_phase.
  pose proof (enemy_loop_sweep es [] p) as Hl.
  rewrite app_nil_r in Hl. rewrite Hl.
  destruct (enemy_sweep canvas p es) as [p' es'].
  rewrite app_nil_r. reflexivity.
Qed.

Lemma update_visits_each_enemy_once_aux (k : Keys.t) (g : Game) :
  player (update canvas k g)
  = fall_out canvas
      (left_boundary
         (fst (enemy_sweep canvas (player_phase k g) (enemies g))))
  /\ enemies (update canvas k g)
     = snd (enemy_sweep canvas (player_phase k g) (enemies g)).
Proof.
  rewrite update_player, update_enemies, enemy_phase_sweep. split; reflexivity.
Qed.

(** X1.  The reverse-index loop of [update], with its in-place [splice],
    is one pass over the collection from the last enemy to the first:
    every enemy present at the start of the tick is visited exactly once,
    whether or not enemies are removed on the way. *)
Theorem update_visits_each_enemy_once (k : Keys.t) (g : Game) :
  (forall (p : Player.t) (es : list Enemy.t),
      enemy_loop canvas (length es) (p, es) = enemy_sweep canvas p es)
  /\ player (update canvas k g)
     = fall_out canvas
         (left_boundary
            (fst (enemy_sweep canvas (player_phase k g) (enemies g))))
  /\ enemies (update canvas k g)
     = snd (enemy_sweep canvas (player_phase k g) (enemies g)).
Proof.
  split; [ exact enemy_phase_sweep | ].
  rewrite update_player, update_enemies, enemy_phase_sweep. split; reflexivity.
Qed.

(** ** What a pass does to the collection *)

Lemma enemy_visit_cases (p : Player.t) (e : Enemy.t) :
  (overlaps p (enemy_move e) = false
   /\ enemy_visit canvas p e = (p, Some (enemy_move e)))
  \/ (overlaps p (enemy_move e) = true /\ 0 < Player.vy p
      /\ enemy_visit canvas p e = (bounce p, None))
  \/ (overlaps p (enemy_move e) = true
      /\ enemy_visit canvas p e
         = (resetPlayer canvas p, Some (enemy_move e))).
Proof.
  unfold enemy_visit. destruct (overlaps p (enemy_move e)); [ | auto ].
  destruct (stomps p (enemy_move e)) eqn:Hs; [ | auto ].
  apply stomps_true in Hs. right. left. tauto.
Qed.

Lemma sublist_map_move (l1 l2 : list Enemy.t) :
  l1 `sublist_of` l2 -> map enemy_move l1 `sublist_of` map enemy_move l2.
Proof. induction 1; simpl; constructor; assumption. Qed.

Lemma enemy_sweep_sublist (es : list Enemy.t) (p : Player.t) :
  snd (enemy_sweep canvas p es) `sublist_of` map enemy_move es.
Proof.
  induction es as [|e es IH]; simpl; [ constructor | ].
  destruct (enemy_sweep canvas p es) as [p1 es'].
  destruct (enemy_visit_cases p1 e) as [[_ ->] | [(_ & _ & ->) | [_ ->]]];
    simpl in *; constructor; exact IH.
Qed.

(** A pass removes at most one enemy: a stomp needs vy > 0 and leaves
    vy = JUMP_FORCE / 2 < 0, and a reset leaves vy = 0. *)
Lemma enemy_sweep_length (es : list Enemy.t) (p : Player.t) :
  (length (snd (enemy_sweep canvas p es)) = length es
   /\ (Player.vy p <= 0 -> Player.vy (fst (enemy_sweep canvas p es)) <= 0))
  \/ (S (length (snd (enemy_sweep canvas p es))) = length es
      /\ Player.vy (fst (enemy_sweep canvas p es)) <= 0).
Proof.
  induction es as [|e es IH]; simpl; [ left; auto | ].
  destruct (enemy_sweep canvas p es) as [p1 es']. simpl in IH.
  destruct (enemy_visit_cases p1 e) as [[_ ->] | [(_ & Hv & ->) | [_ ->]]];
    simpl.
  - destruct IH as [[Hl Hk] | [Hl Hk]]; [ left | right ]; auto.
  - destruct IH as [[Hl Hk] | [Hl Hk]]; [ | exfalso; lra ].
    right. split; [ lia | ]. unfold JUMP_FORCE. vm_compute. discriminate.
  - destruct IH as [[Hl Hk] | [Hl Hk]]; [ left | right ];
      (split; [ lia | intros; lra ]) || (split; [ lia | lra ]).
Qed.

Lemma enemy_sweep_no_contact (es : list Enemy.t) (p : Player.t) :
  Forall (fun e => overlaps p (enemy_move e) = false) es ->
  enemy_sweep canvas p es = (p, map enemy_move es).
Proof.
  induction 1 as [| e es He _ IH]; simpl; [ reflexivity | ].
  rewrite IH. unfold enemy_visit. rewrite He. reflexivity.
Qed.

(** X2.  Within one tick every enemy that survives has made exactly one
    move and the survivors keep their order; nothing is ever added, and
    at most one enemy is removed. *)
Theorem enemies_move_or_vanish (k : Keys.t) (g : Game) :
  enemies (update canvas k g) `sublist_of` map enemy_move (enemies g)
  /\ (length (enemies (update canvas k g)) <= length (enemies g)
      <= S (length (enemies (update canvas k g))))%nat.
Proof.
  rewrite update_enemies, enemy_phase_sweep.
  pose proof (enemy_sweep_sublist (enemies g) (player_phase k g)) as Hs.
  split; [ exact Hs | ].
  apply sublist_length in Hs. rewrite length_map in Hs.
  destruct (enemy_sweep_length (enemies g) (player_phase k g))
    as [[Hl _] | [Hl _]]; lia.
Qed.

Lemma enemy_moves_shift (n : nat) (e : Enemy.t) :
  enemy_moves n (enemy_move e) = enemy_moves (S n) e.
Proof.
  induction n as [|n IH]; [ reflexivity | ].
  cbn [enemy_moves] in *. rewrite IH. reflexivity.
Qed.

Lemma sublist_map_moves (n : nat) (l1 l2 : list Enemy.t) :
  l1 `sublist_of` l2 ->
  map (enemy_moves n) l1 `sublist_of` map (enemy_moves n) l2.
Proof. induction 1; simpl; constructor; assumption. Qed.

(** X3.  Over any run, whatever the keys and whatever the player does,
    the enemies left after [n] ticks are enemies of the start, in their
    original order, each moved exactly [n] times: an enemy's path never
    depends on the player, only its survival does.  The collection never
    grows and loses at most one enemy per tick. *)
Theorem enemies_follow_their_own_path (ks : list Keys.t) (g : Game) :
  enemies (ticks canvas ks g)
    `sublist_of` map (enemy_moves (length ks)) (enemies g)
  /\ (length (enemies (ticks canvas ks g)) <= length (enemies g)
      <= length (enemies (ticks canvas ks g)) + length ks)%nat.
Proof.
  revert g. induction ks as [|k ks IH]; intros g.
  - cbn [ticks length enemy_moves]. split; [ | lia ].
    rewrite map_id. reflexivity.
  - cbn [ticks length]. destruct (IH (update canvas k g)) as [Hs Hl].
    rewrite update_enemies, enemy_phase_sweep in Hs, Hl.
    pose proof (enemy_sweep_sublist (enemies g) (player_phase k g)) as Hs1.
    split.
    + etransitivity; [ exact Hs | ].
      etransitivity; [ apply sublist_map_moves; exact Hs1 | ].
      rewrite map_map.
      erewrite map_ext; [ reflexivity | ].
      intros e. apply enemy_moves_shift.
    + apply sublist_length in Hs1. rewrite length_map in Hs1.
      destruct (enemy_sweep_length (enemies g) (player_phase k g))
        as [[Hl1 _] | [Hl1 _]]; lia.
Qed.

(** X4.  In a tick where no enemy, once moved, overlaps the player, the
    enemy loop changes nothing about the player and every enemy just
    makes its move. *)
Theorem no_contact_tick (k : Keys.t) (g : Game) :
  Forall (fun e => overlaps (player_phase k g) (enemy_move e) = false)
    (enemies g) ->
  enemies (update canvas k g) = map enemy_move (enemies g)
  /\ player (update canvas k g)
     = fall_out canvas (left_boundary (player_phase k g)).
Proof.
  intros Hfree.
  rewrite update_player, update_enemies, enemy_phase_sweep.
  rewrite (enemy_sweep_no_contact _ _ Hfree). split; reflexivity.
Qed.

(** ** What a tick does to the player *)

(** [project] computes the projections of updated records. *)
Ltac project :=
  cbn [integrate land bounce
       Player.set_x Player.set_y Player.set_vx Player.set_vy
       Player.set_isJumping
       Player.x Player.y Player.width Player.height Player.vx Player.vy
       Player.isJumping fst snd] in *.

Lemma enemy_visit_player (P : Player.t -> Prop) (p : Player.t)
    (e : Enemy.t) :
  P p -> (0 < Player.vy p -> P (bounce p)) -> P (resetPlayer canvas p) ->
  P (fst (enemy_visit canvas p e)).
Proof.
  intros Hp Hb Hr.
  destruct (enemy_visit_cases p e) as [[_ ->] | [(_ & Hv & ->) | [_ ->]]];
    simpl; auto.
Qed.

(** An invariant of the player that a stomp (possible only with vy > 0)
    and a reset keep is kept by the whole pass. *)
Lemma enemy_sweep_player (P : Player.t -> Prop) :
  (forall p, P p -> 0 < Player.vy p -> P (bounce p)) ->
  (forall p, P p -> P (resetPlayer canvas p)) ->
  forall (es : list Enemy.t) (p : Player.t),
    P p -> P (fst (enemy_sweep canvas p es)).
Proof.
  intros Hb Hr es. induction es as [|e es IH]; intros p Hp; [ exact Hp | ].
  simpl. specialize (IH p Hp).
  destruct (enemy_sweep canvas p es) as [p1 es']. simpl in IH.
  pose proof (enemy_visit_player P p1 e IH (Hb p1 IH) (Hr p1 IH)) as Hv.
  destruct (enemy_visit canvas p1 e) as [p2 [e'|]]; exact Hv.
Qed.

(** The platform loop either catches nothing, or lands the player on a
    platform of the list that catches it. *)
Lemma platform_collision_cases (qs : list Platform.t) (p : Player.t) :
  (Forall (fun q => catches p q = false) qs
   /\ platform_collision qs p = Player.set_isJumping true p)
  \/ (exists q, q ∈ qs /\ catches p q = true
      /\ platform_collision qs p = Player.set_isJumping false (land p q)).
Proof.
  unfold platform_collision. induction qs as [|q qs IH]; simpl.
  - left. split; [ constructor | reflexivity ].
  - destruct (catches p q) eqn:Hq.
    + right. exists q. split; [ left | ]. split; [ exact Hq | reflexivity ].
    + destruct IH as [[Hall ->] | (q' & Hin & Hc & ->)].
      * left. split; [ constructor; assumption | reflexivity ].
      * right. exists q'. split; [ right; exact Hin | ]. split; auto.
Qed.

Lemma takeoff_fields (k : Keys.t) (g : Game) :
  Player.x (takeoff k g) = Player.x (player g)
  /\ Player.y (takeoff k g) = Player.y (player g)
  /\ Player.width (takeoff k g) = Player.width (player g)
  /\ Player.height (takeoff k g) = Player.height (player g)
  /\ Player.vx (takeoff k g)
     = (if Keys.left k then - PLAYER_SPEED
        else if Keys.right k then PLAYER_SPEED else 0)
  /\ Player.vy (takeoff k g)
     = (if Keys.up k && negb (Player.isJumping (player g))
        then JUMP_FORCE else Player.vy (player g)).
Proof.
  unfold takeoff, jump_intent, horizontal_intent.
  destruct (player g) as [x0 y0 w0 h0 vx0 vy0 [|]].
  all: destruct (Keys.left k), (Keys.right k), (Keys.up k); repeat split.
Qed.

(** The player as it enters the enemy loop, field by field. *)
Lemma player_phase_fields (k : Keys.t) (g : Game) :
  Player.x (player_phase k g)
  = Player.x (takeoff k g) + Player.vx (takeoff k g)
  /\ Player.vx (player_phase k g) = Player.vx (takeoff k g)
  /\ Player.width (player_phase k g) = Player.width (takeoff k g)
  /\ Player.height (player_phase k g) = Player.height (takeoff k g).
Proof.
  unfold player_phase. fold (takeoff k g).
  destruct (platform_collision_cases (platforms g) (integrate (takeoff k g)))
    as [[_ ->] | (q & _ & _ & ->)]; repeat split.
Qed.

Lemma end_of_tick_fields (p : Player.t) :
  Player.vx (fall_out canvas (left_boundary p)) = Player.vx p
  /\ Player.width (fall_out canvas (left_boundary p)) = Player.width p
  /\ Player.height (fall_out canvas (left_boundary p)) = Player.height p.
Proof.
  unfold fall_out, left_boundary.
  destruct (Player.x p <? 0); simpl;
    destruct (_ <? _); repeat split.
Qed.

(** X5.  The horizontal outcome of a tick.  vx is [-PLAYER_SPEED] when
    left is held (also when right is held too), [PLAYER_SPEED] when only
    right is, [0] otherwise, and nothing else in the tick changes it, not
    even a reset.  The player moves by that much, stopped at the left
    wall x = 0, unless the tick sends it back to the spawn point. *)
Theorem horizontal_outcome (k : Keys.t) (g : Game) :
  let v := if Keys.left k then - PLAYER_SPEED
           else if Keys.right k then PLAYER_SPEED else 0 in
  Player.vx (player (update canvas k g)) = v
  /\ (at_spawn canvas (player (update canvas k g))
      \/ Player.x (player (update canvas k g))
         = (if Player.x (player g) + v <? 0 then 0
            else Player.x (player g) + v)).
Proof.
  intros v.
  destruct (takeoff_fields k g) as (Hx & _ & _ & _ & Hvx & _). fold v in Hvx.
  destruct (player_phase_fields k g) as (Hx1 & Hvx1 & _).
  rewrite Hx, Hvx in Hx1. rewrite Hvx in Hvx1.
  destruct (update_visits_each_enemy_once_aux k g) as [-> _].
  set (p2 := fst (enemy_sweep canvas (player_phase k g) (enemies g))).
  assert (Player.vx p2 = v
          /\ (at_spawn canvas p2 \/ Player.x p2 = Player.x (player g) + v))
    as [Hv2 Hx2].
  { apply (enemy_sweep_player
             (fun p => Player.vx p = v
                       /\ (at_spawn canvas p
                           \/ Player.x p = Player.x (player g) + v))).
    - intros p [Hv [Hs | Hxp]] Hpos.
      + destruct Hs as (_ & _ & Hvy & _). rewrite Hvy in Hpos. lra.
      + split; [ exact Hv | right; exact Hxp ].
    - intros p [Hv _]. split; [ exact Hv | left; repeat split ].
    - split; [ exact Hvx1 | right; exact Hx1 ]. }
  destruct (end_of_tick_fields p2) as (-> & _). split; [ exact Hv2 | ].
  unfold fall_out. destruct (H <? Player.y (left_boundary p2));
    [ left; repeat split | ].
  unfold left_boundary. destruct Hx2 as [Hs | Hx2].
  - left. destruct Hs as (Hsx & Hsy & Hsv & Hsj). rewrite Hsx.
    change (100 <? 0) with false. repeat split; assumption.
  - right. rewrite Hx2. destruct (_ <? 0); [ reflexivity | exact Hx2 ].
Qed.

Lemma end_of_tick_vertical (p : Player.t) :
  Player.y (fall_out canvas (left_boundary p)) <= H
  /\ (at_spawn canvas (fall_out canvas (left_boundary p))
      \/ (Player.y (fall_out canvas (left_boundary p)) = Player.y p
          /\ Player.vy (fall_out canvas (left_boundary p)) = Player.vy p
          /\ Player.isJumping (fall_out canvas (left_boundary p))
             = Player.isJumping p
          /\ Player.height (fall_out canvas (left_boundary p))
             = Player.height p)).
Proof.
  unfold fall_out.
  assert (Player.y (left_boundary p) = Player.y p
          /\ Player.vy (left_boundary p) = Player.vy p
          /\ Player.isJumping (left_boundary p) = Player.isJumping p
          /\ Player.height (left_boundary p) = Player.height p)
    as (Hy & Hv & Hj & Hh).
  { unfold left_boundary. destruct (_ <? 0); repeat split. }
  destruct (H <? Player.y (left_boundary p)) eqn:E; qprop.
  - split; [ simpl; lra | left; repeat split ].
  - split; [ exact E | right; repeat split; assumption ].
Qed.

(** Through the enemy pass the player is reset, or keeps its height and
    grounded flag, with its vy unchanged or replaced by the bounce of a
    stomp (which needs the vy it came with to be positive). *)
Lemma enemy_sweep_vertical (es : list Enemy.t) (p1 : Player.t) :
  let p2 := fst (enemy_sweep canvas p1 es) in
  at_spawn canvas p2
  \/ (Player.y p2 = Player.y p1
      /\ Player.height p2 = Player.height p1
      /\ Player.isJumping p2 = Player.isJumping p1
      /\ (Player.vy p2 = Player.vy p1
          \/ (0 < Player.vy p1 /\ Player.vy p2 = JUMP_FORCE / 2))).
Proof.
  apply (enemy_sweep_player
           (fun p => at_spawn canvas p
              \/ (Player.y p = Player.y p1
                  /\ Player.height p = Player.height p1
                  /\ Player.isJumping p = Player.isJumping p1
                  /\ (Player.vy p = Player.vy p1
                      \/ (0 < Player.vy p1
                          /\ Player.vy p = JUMP_FORCE / 2))))).
  - intros p [Hs | (Hy & Hh & Hj & Hv)] Hpos.
    + destruct Hs as (_ & _ & Hvy & _). rewrite Hvy in Hpos. lra.
    + right. repeat split; try assumption. right.
      split; [ | reflexivity ].
      destruct Hv as [Hv | [Hv _]]; [ rewrite <- Hv | ]; assumption.
  - intros p _. left. repeat split.
  - right. repeat split. left. reflexivity.
Qed.

(** X6.  The vertical outcome of a tick.  With [v] the vy the player
    enters the move with ([JUMP_FORCE] if it jumps, its old vy if not),
    the tick ends in one of three ways: the player is back at the spawn
    point; or it is grounded, with vy = 0 and its bottom edge exactly on
    the top of a platform that caught it; or it is airborne, moved by
    [v], with vy = v + GRAVITY (or [JUMP_FORCE / 2] after a stomp, which
    needs v + GRAVITY > 0).  In every case the player ends at or above
    the bottom of the canvas. *)
Theorem vertical_outcome (k : Keys.t) (g : Game) :
  let v := if Keys.up k && negb (Player.isJumping (player g))
           then JUMP_FORCE else Player.vy (player g) in
  let p' := player (update canvas k g) in
  Player.y p' <= H
  /\ (at_spawn canvas p'
      \/ (Player.isJumping p' = false
          /\ Player.vy p' = 0
          /\ exists q, q ∈ platforms g
                /\ catches (integrate (takeoff k g)) q = true
                /\ Player.y p' = Platform.y q - Player.height p')
      \/ (Player.isJumping p' = true
          /\ Player.y p' = Player.y (player g) + v
          /\ (Player.vy p' = v + GRAVITY
              \/ (0 < v + GRAVITY /\ Player.vy p' = JUMP_FORCE / 2)))).
Proof.
  intros v p'. subst p'.
  destruct (takeoff_fields k g) as (_ & Hy & _ & _ & _ & Hv). fold v in Hv.
  destruct (update_visits_each_enemy_once_aux k g) as [-> _].
  pose proof (enemy_sweep_vertical (enemies g) (player_phase k g)) as HS.
  cbv zeta in HS.
  remember (fst (enemy_sweep canvas (player_phase k g) (enemies g))) as p2
    eqn:Ep2.
  clear Ep2.
  destruct (end_of_tick_vertical p2) as [Hle Hend].
  split; [ exact Hle | ].
  destruct HS as [Hs | (Sy & Sh & Sj & Sv)];
    [ left; apply at_spawn_end_of_tick; exact Hs | ].
  destruct Hend as [Hs | (Ey & Ev & Ej & Eh)]; [ left; exact Hs | ].
  rewrite Ey, Ev, Ej, Eh. clear Ey Ev Ej Eh Hle.
  right. rewrite Sy, Sj, Sh. clear Sy Sj Sh.
  unfold player_phase in *. fold (takeoff k g) in *.
  destruct (platform_collision_cases (platforms g) (integrate (takeoff k g)))
    as [[_ Hp] | (q & Hin & Hc & Hp)]; rewrite Hp in *; project.
  - right. rewrite Hy, Hv in *. split; [ reflexivity | ].
    split; [ reflexivity | exact Sv ].
  - left. split; [ reflexivity | ]. split.
    + destruct Sv as [Sv | [Sv _]]; [ exact Sv | lra ].
    + exists q. repeat split; assumption.
Qed.

Lemma update_player_size (k : Keys.t) (g : Game) :
  Player.width (player (update canvas k g)) = Player.width (player g)
  /\ Player.height (player (update canvas k g)) = Player.height (player g).
Proof.
  destruct (takeoff_fields k g) as (_ & _ & Hw & Hh & _).
  destruct (player_phase_fields k g) as (_ & _ & Hw1 & Hh1).
  destruct (update_visits_each_enemy_once_aux k g) as [-> _].
  destruct (end_of_tick_fields
              (fst (enemy_sweep canvas (player_phase k g) (enemies g))))
    as (_ & -> & ->).
  apply (enemy_sweep_player
           (fun p => Player.width p = Player.width (player g)
                     /\ Player.height p = Player.height (player g))).
  - intros p Hp _. exact Hp.
  - intros p Hp. exact Hp.
  - split; congruence.
Qed.

(** X7.  A tick never changes the player's size, the platforms, or the
    camera's vertical offset. *)
Theorem update_keeps_shape (k : Keys.t) (g : Game) :
  Player.width (player (update canvas k g)) = Player.width (player g)
  /\ Player.height (player (update canvas k g)) = Player.height (player g)
  /\ platforms (update canvas k g) = platforms g
  /\ Camera.y (camera (update canvas k g)) = Camera.y (camera g).
Proof.
  destruct (update_player_size k g) as [Hw Hh].
  split; [ exact Hw | ]. split; [ exact Hh | ].
  split; [ apply update_platforms | ].
  unfold update. destruct (enemy_phase canvas _ _). reflexivity.
Qed.

(** ** Landing *)

(** X8.  The platform loop stops at the first platform of the list that
    catches the player: the platforms after it are not consulted.  The
    player is put with its bottom edge exactly on that platform's top,
    vy = 0, grounded, its x untouched; the platform it stands on does
    not catch it a second time. *)
Theorem first_catch_wins (qs1 qs2 : list Platform.t) (q : Platform.t)
    (p : Player.t) :
  Forall (fun q' => catches p q' = false) qs1 ->
  catches p q = true ->
  let p' := platform_collision (qs1 ++ q :: qs2) p in
  p' = Player.set_isJumping false (land p q)
  /\ Player.y p' + Player.height p' == Platform.y q
  /\ Player.vy p' = 0
  /\ Player.isJumping p' = false
  /\ Player.x p' = Player.x p
  /\ catches p' q = false.
Proof.
  intros Hmiss Hq p'.
  assert (p' = Player.set_isJumping false (land p q)) as Hp'.
  { subst p'. unfold platform_collision.
    induction Hmiss as [| q0 qs1 Hq0 _ IH]; simpl.
    - rewrite Hq. reflexivity.
    - rewrite Hq0. exact IH. }
  rewrite Hp'. project.
  split; [ reflexivity | ]. split; [ ring | ].
  repeat (split; [ reflexivity | ]).
  destruct (catches (Player.set_isJumping false (land p q)) q) eqn:E;
    [ exfalso | reflexivity ].
  unfold catches in E. project. qprop. lra.
Qed.

(** ** Free flight *)

Lemma Qnat_succ (n : nat) : Qnat (S n) == Qnat n + 1.
Proof. apply inject_nat_succ. Qed.

Lemma free_flight_S (n : nat) (p : Player.t) :
  free_flight (S n) p = integrate (free_flight n p).
Proof. reflexivity. Qed.

(** X9.  The motion [update] integrates, in closed form: after [n]
    moves in a row with nothing in the way, x has advanced by [n * vx],
    vy has grown by [n * GRAVITY], and y has advanced by
    [n * vy + GRAVITY * n (n - 1) / 2]: each move uses the velocity the
    previous one left, gravity being added after the move. *)
Theorem free_flight_law (n : nat) (p : Player.t) :
  Player.x (free_flight n p) == Player.x p + Qnat n * Player.vx p
  /\ Player.y (free_flight n p)
     == Player.y p + Qnat n * Player.vy p
        + GRAVITY * (Qnat n * (Qnat n - 1) / 2)
  /\ Player.vx (free_flight n p) = Player.vx p
  /\ Player.vy (free_flight n p) == Player.vy p + Qnat n * GRAVITY.
Proof.
  induction n as [|n (IHx & IHy & IHvx & IHvy)].
  - change (free_flight 0 p) with p. change (Qnat 0) with 0.
    unfold GRAVITY.
    split; [ ring | ]. split; [ field | ]. split; [ reflexivity | ring ].
  - rewrite free_flight_S. project.
    rewrite IHx, IHy, IHvx, IHvy, Qnat_succ. unfold GRAVITY.
    split; [ ring | ]. split; [ field | ]. split; [ reflexivity | ring ].
Qed.

Lemma Qnat_apex (n : nat) : 0 <= (Qnat n - 24) * (Qnat n - 25).
Proof.
  unfold Qnat.
  assert (0 <= (Z.of_nat n - 24) * (Z.of_nat n - 25))%Z as Hz.
  { destruct (Z_le_gt_dec (Z.of_nat n) 24); nia. }
  rewrite Zle_Qle, inject_Z_mult in Hz.
  unfold Z.sub in Hz. rewrite !inject_Z_plus in Hz.
  exact Hz.
Qed.

(** X10.  How high a jump goes.  A player that leaves the ground with
    vy = JUMP_FORCE and meets nothing never rises more than 150 above
    its take-off height; it is exactly 150 above it after 24 moves, with
    vy = 0 there. *)
Theorem jump_apex (p : Player.t) :
  Player.vy p == JUMP_FORCE ->
  (forall n : nat, Player.y p - 150 <= Player.y (free_flight n p))
  /\ Player.y (free_flight 24 p) == Player.y p - 150
  /\ Player.vy (free_flight 24 p) == 0.
Proof.
  intros Hv. split; [ | split ].
  - intros n. destruct (free_flight_law n p) as (_ & -> & _).
    rewrite Hv. pose proof (Qnat_apex n) as Ha.
    unfold JUMP_FORCE, GRAVITY. apply Qle_minus_iff.
    assert (Player.y p + Qnat n * -12
            + (1 # 2) * (Qnat n * (Qnat n - 1) / 2) + - (Player.y p - 150)
            == (1 # 4) * ((Qnat n - 24) * (Qnat n - 25))) as -> by field.
    apply Qmult_le_0_compat; [ lra | exact Ha ].
  - destruct (free_flight_law 24 p) as (_ & -> & _).
    rewrite Hv. unfold JUMP_FORCE, GRAVITY. vm_compute Qnat.
    field.
  - destruct (free_flight_law 24 p) as (_ & _ & _ & ->).
    rewrite Hv. reflexivity.
Qed.

(** ** The jump key while standing *)

Lemma update_airborne_ignores_up (k : Keys.t) (g : Game) :
  Player.isJumping (player g) = true ->
  update canvas k g = update canvas (release_up k) g.
Proof.
  intros Hj.
  destruct (horizontal_intent_vertical k (player g)) as (_ & _ & Hi).
  assert (forall k', jump_intent k' (horizontal_intent k (player g))
                     = horizontal_intent k (player g)) as Hskip.
  { intros k'. unfold jump_intent. rewrite Hi, Hj, andb_false_r.
    reflexivity. }
  unfold update, player_phase.
  rewrite horizontal_intent_release_up, !Hskip. reflexivity.
Qed.

Lemma release_up_idle (k : Keys.t) :
  Keys.left k = false -> Keys.right k = false -> release_up k = Keys.none.
Proof. destruct k as [l r u]. simpl. intros -> ->. reflexivity. Qed.

Lemma rest_phase_hover_ignores_up (q : Platform.t) (p0 : Player.t)
    (g : Game) (k : Keys.t) :
  rest_phase canvas q p0 true g ->
  Keys.left k = false -> Keys.right k = false ->
  rest_phase canvas q p0 false (update canvas k g).
Proof.
  intros Hg Hl Hr. pose proof Hg as (_ & _ & _ & _ & _ & Hj & _).
  rewrite (update_airborne_ignores_up k g Hj), (release_up_idle k Hl Hr).
  apply hover_tick. exact Hg.
Qed.

(** X11.  A standing player cannot jump on the frames where the flag
    says airborne.  From steady rest, holding the jump key on every
    second frame only (frames 2, 4, ...) is the same as holding nothing:
    the player never leaves the ground; whereas on frame 1 the same key
    gives it vy = JUMP_FORCE. *)
Theorem jump_ignored_on_hover_frames (j : nat) (q : Platform.t) (g : Game) :
  platforms g !! j = Some q ->
  steady_rest canvas q g = true ->
  Player.vy (takeoff jump_key g) = JUMP_FORCE
  /\ forall n : nat,
      ticks canvas (concat (repeat [Keys.none; jump_key] n)) g
      = ticks canvas (repeat Keys.none (2 * n)) g.
Proof.
  intros Hj Hs. split.
  - destruct (takeoff_fields jump_key g) as (_ & _ & _ & _ & _ & ->).
    unfold steady_rest in Hs. qprop.
    match goal with Hn : Player.isJumping _ = false |- _ => rewrite Hn end.
    reflexivity.
  - pose proof (steady_rest_phase canvas j q g Hj Hs) as Hg.
    clear Hj Hs. revert Hg. generalize (player g) at 1. intros p0 Hg n.
    revert g Hg. induction n as [|n IH]; intros g Hg; [ reflexivity | ].
    replace (2 * S n)%nat with (S (S (2 * n))) by lia.
    cbn [repeat concat app ticks].
    pose proof (rest_tick canvas q p0 g Hg) as Hg1.
    pose proof Hg1 as (_ & _ & _ & _ & _ & Hj1 & _).
    rewrite (update_airborne_ignores_up jump_key _ Hj1).
    change (release_up jump_key) with Keys.none.
    apply IH. apply hover_tick. exact Hg1.
Qed.

(** ** After a reset *)

Lemma spawn_box_stands_on_ground :
  stands_on canvas (ground canvas) (spawn_box canvas) = true.
Proof.
  unfold stands_on, ground, spawn_box. cbn [Player.x Player.y Player.width
    Player.height Platform.x Platform.y Platform.width].
  rewrite !andb_true_iff.
  repeat split;
    first [ apply Qeq_bool_iff | apply Qltb_lt | apply Qleb_le ]; lra.
Qed.

Lemma level_ground_clear :
  Forall (fun q' => platform_clear (ground canvas) q' = true)
    (createPlatforms canvas).
Proof.
  unfold createPlatforms.
  repeat constructor; apply platform_clear_spec;
    unfold ground, GRAVITY, WORLD_WIDTH; cbn [Platform.y];
    first [ left; lra | right; left; lra | right; right; lra ].
Qed.

Lemma createEnemies_clear_of_spawn :
  Forall (fun e => keeps_clear (spawn_box canvas) e = true)
    (createEnemies canvas).
Proof.
  unfold createEnemies.
  repeat constructor; apply keeps_clear_spec; right; right;
    (split; [ reflexivity | left; vm_compute; discriminate ]).
Qed.

Lemma reachable_level_state (g : Game) :
  reachable canvas g -> level_state canvas g.
Proof.
  induction 1 as [| k g _ (Hp & Hw & Hh & He)].
  - repeat split. apply createEnemies_clear_of_spawn.
  - destruct (update_player_size k g) as [Hw' Hh'].
    unfold level_state.
    rewrite update_platforms, Hw', Hh', update_enemies.
    repeat split; try assumption.
    unfold enemy_phase. apply enemy_loop_enemies; [ | exact He ].
    intros e. apply keeps_clear_move.
Qed.

(** The tick after a reset: flush on the ground with vy = 0, so nothing
    catches the player, whatever its flag says. *)
Lemma spawn_tick (g : Game) :
  level_state canvas g -> at_spawn canvas (player g) ->
  rest_phase canvas (ground canvas) (spawn_box canvas) true
    (update canvas Keys.none g).
Proof.
  intros (Hpl & Hw & Hh & Hen) (Hx & Hy & Hv & Hj).
  pose proof spawn_box_stands_on_ground as Hst.
  pose proof level_ground_clear as Hclear. rewrite <- Hpl in Hclear.
  set (pa := integrate (Player.set_vx 0 (player g))).
  assert (platform_loop pa (platforms g) = (pa, false)) as Hloop.
  { apply platform_loop_no_catch. eapply Forall_impl; [ exact Hclear | ].
    intros q' Hc. cbv beta in Hc. apply platform_clear_spec in Hc.
    destruct (catches pa q') eqn:E; [ exfalso | reflexivity ].
    unfold catches in E. subst pa. project. qprop.
    rewrite Hy, Hv, Hh in *.
    unfold ground, GRAVITY in *. cbn [Platform.y] in Hc.
    destruct Hc as [Hc | [Hc | Hc]]; lra. }
  assert (player_phase Keys.none g = Player.set_isJumping true pa) as Hph.
  { rewrite player_phase_idle. fold pa. unfold platform_collision.
    rewrite Hloop. reflexivity. }
  destruct (update_quiet canvas Keys.none g (spawn_box canvas)) as [Hp Hes];
    try (rewrite Hph; subst pa; project; unfold spawn_box;
         cbn [Player.x Player.y Player.width Player.height];
         rewrite ?Hx, ?Hy, ?Hv, ?Hw, ?Hh; lra);
    try assumption;
    try (unfold spawn_box; cbn [Player.x Player.y]; lra).
  unfold rest_phase. rewrite Hp, Hph, update_platforms, Hpl.
  subst pa. project. unfold spawn_box.
  cbn [Player.x Player.y Player.width Player.height].
  rewrite Hx, Hy, Hv, Hw, Hh. rewrite <- Hpl.
  repeat split; try assumption; try reflexivity; try lra.
  rewrite Hpl. left.
Qed.

(** X12.  After any reset the game goes on.  In every state the game
    reaches with the player just reset to the spawn point, two frames
    without left or right (the jump key may be down: the reset marks the
    player airborne) leave the player standing on the ground at the
    spawn point, grounded, with vy = 0. *)
Theorem respawn_lands (g : Game) (k1 k2 : Keys.t) :
  reachable canvas g ->
  at_spawn canvas (player g) ->
  Keys.left k1 = false -> Keys.right k1 = false ->
  Keys.left k2 = false -> Keys.right k2 = false ->
  let g2 := update canvas k2 (update canvas k1 g) in
  Player.x (player g2) == 100
  /\ Player.y (player g2) == H - 100
  /\ Player.vy (player g2) == 0
  /\ Player.isJumping (player g2) = false.
Proof.
  intros Hreach Hsp Hl1 Hr1 Hl2 Hr2 g2. subst g2.
  pose proof Hsp as (_ & _ & _ & Hj).
  rewrite (update_airborne_ignores_up k1 g Hj), (release_up_idle k1 Hl1 Hr1).
  pose proof (spawn_tick g (reachable_level_state g Hreach) Hsp) as Hg1.
  pose proof (rest_phase_hover_ignores_up _ _ _ k2 Hg1 Hl2 Hr2)
    as (Hx & Hy & _ & _ & Hv & Hjf & _).
  repeat split; assumption.
Qed.

(** ** Stomp or hit, within the tick *)

Lemma enemy_sweep_app (l1 l2 : list Enemy.t) (p : Player.t) :
  enemy_sweep canvas p (l1 ++ l2)
  = let '(p2, l2') := enemy_sweep canvas p l2 in
    let '(p3, l1') := enemy_sweep canvas p2 l1 in
    (p3, l1' ++ l2').
Proof.
  induction l1 as [|a l1 IH]; simpl.
  - destruct (enemy_sweep canvas p l2). reflexivity.
  - rewrite IH. destruct (enemy_sweep canvas p l2) as [p2 l2'].
    destruct (enemy_sweep canvas p2 l1) as [p3 l1'].
    destruct (enemy_visit canvas p3 a) as [p4 [a'|]]; reflexivity.
Qed.

(** With vy <= 0 there is no stomp: every enemy makes its move and
    stays, and vy is still <= 0 afterwards. *)
Lemma enemy_sweep_not_falling (l : list Enemy.t) (p : Player.t) :
  Player.vy p <= 0 ->
  snd (enemy_sweep canvas p l) = map enemy_move l
  /\ Player.vy (fst (enemy_sweep canvas p l)) <= 0.
Proof.
  intros Hv. induction l as [|a l [IHl IHv]]; simpl; [ auto | ].
  destruct (enemy_sweep canvas p l) as [p1 l']. simpl in IHl, IHv.
  destruct (enemy_visit_cases p1 a) as [[_ ->] | [(_ & Hpos & ->) | [_ ->]]];
    simpl.
  - split; [ rewrite IHl; reflexivity | exact IHv ].
  - exfalso. lra.
  - split; [ rewrite IHl; reflexivity | lra ].
Qed.

Lemma bounce_not_falling (p : Player.t) : Player.vy (bounce p) <= 0.
Proof. vm_compute. discriminate. Qed.

Lemma reset_not_falling (p : Player.t) :
  Player.vy (resetPlayer canvas p) <= 0.
Proof. simpl. lra. Qed.

Lemma enemy_sweep_at_spawn (l : list Enemy.t) (p : Player.t) :
  at_spawn canvas p -> at_spawn canvas (fst (enemy_sweep canvas p l)).
Proof.
  apply (enemy_sweep_player (at_spawn canvas)).
  - intros q (_ & _ & Hvy & _) Hpos. rewrite Hvy in Hpos. lra.
  - intros q _. repeat split.
Qed.

(** After a stomp the player keeps vy = JUMP_FORCE / 2 until something
    resets it. *)
Lemma enemy_sweep_bounced (l : list Enemy.t) (p : Player.t) :
  Player.vy p = JUMP_FORCE / 2 ->
  Player.vy (fst (enemy_sweep canvas p l)) = JUMP_FORCE / 2
  \/ at_spawn canvas (fst (enemy_sweep canvas p l)).
Proof.
  intros Hv.
  apply (enemy_sweep_player
           (fun q => Player.vy q = JUMP_FORCE / 2 \/ at_spawn canvas q)).
  - intros q _ _. left. reflexivity.
  - intros q _. right. repeat split.
  - left. exact Hv.
Qed.

Lemma end_of_tick_bounced (p : Player.t) :
  Player.vy p = JUMP_FORCE / 2 \/ at_spawn canvas p ->
  Player.vy (fall_out canvas (left_boundary p)) = JUMP_FORCE / 2
  \/ at_spawn canvas (fall_out canvas (left_boundary p)).
Proof.
  intros [Hv | Hs]; [ | right; apply at_spawn_end_of_tick; exact Hs ].
  destruct (end_of_tick_vertical p) as [_ [Hs | (_ & Hv' & _)]];
    [ right; exact Hs | left; congruence ].
Qed.

(** From any state whatever.  Take a tick and an enemy [e] of the
    collection, [pre] the enemies before it and [suf] those after it.
    When the loop reaches [e], the player is as the platform step and
    the enemies of [suf] left it, and [e] has just moved.  If their
    boxes overlap then: with vy > 0 and [y + height - vy] at or above
    the enemy's top, [e] is removed from the collection and vy is set
    to [JUMP_FORCE / 2], which it still is when the tick ends unless
    the player is reset later in the same tick (it is, in any case,
    when no enemy of [pre] touches the player and the player is not
    below the canvas); otherwise the player is reset, the tick ends
    with it at the spawn point, x = 100, and [e] is still in the
    collection.  The other enemies make their move and stay. *)
Lemma stomp_or_hit_in_tick (k : Keys.t) (g : Game)
    (pre suf : list Enemy.t) (e : Enemy.t) :
  enemies g = pre ++ e :: suf ->
  let p := fst (enemy_phase canvas (player_phase k g) suf) in
  let rest := snd (enemy_phase canvas (player_phase k g) suf) in
  let e' := enemy_move e in
  overlaps p e' = true ->
  (0 < Player.vy p
   /\ Player.y p + Player.height p - Player.vy p <= Enemy.y e' ->
     enemies (update canvas k g) = map enemy_move pre ++ rest
     /\ Player.vy (fst (enemy_phase canvas (player_phase k g) (e :: suf)))
        = JUMP_FORCE / 2
     /\ (Player.vy (player (update canvas k g)) = JUMP_FORCE / 2
         \/ at_spawn canvas (player (update canvas k g)))
     /\ (Forall (fun a => overlaps p (enemy_move a) = false) pre ->
         Player.y p <= H ->
         Player.vy (player (update canvas k g)) = JUMP_FORCE / 2))
  /\ (Player.vy p <= 0
      \/ Enemy.y e' < Player.y p + Player.height p - Player.vy p ->
     enemies (update canvas k g) = map enemy_move pre ++ e' :: rest
     /\ at_spawn canvas (player (update canvas k g))
     /\ Player.x (player (update canvas k g)) = 100).
Proof.
  intros Hes p rest e' Ho. subst p rest e'.
  destruct (update_visits_each_enemy_once_aux k g) as [-> ->].
  rewrite Hes, enemy_sweep_app, !enemy_phase_sweep.
  rewrite enemy_phase_sweep in Ho.
  set (p1 := player_phase k g) in *.
  cbn [enemy_sweep].
  destruct (enemy_sweep canvas p1 suf) as [p rest].
  cbn [fst snd] in *.
  unfold enemy_visit. rewrite Ho.
  split; intros Hc.
  - apply stomps_true in Hc. rewrite Hc. cbn [fst snd].
    destruct (enemy_sweep_not_falling pre (bounce p) (bounce_not_falling p))
      as [Hpre _].
    pose proof (enemy_sweep_bounced pre (bounce p) eq_refl) as Hend.
    pose proof (enemy_sweep_no_contact pre (bounce p)) as Hfree.
    destruct (enemy_sweep canvas (bounce p) pre) as [p3 pre'].
    cbn [fst snd] in *. subst pre'.
    split; [ reflexivity | ]. split; [ reflexivity | ].
    split; [ apply end_of_tick_bounced; exact Hend | ].
    intros Hno Hy. specialize (Hfree Hno). injection Hfree as ->.
    unfold fall_out, left_boundary.
    destruct (Player.x (bounce p) <? 0); cbn [Player.y Player.set_x bounce
      Player.set_vy];
      (assert ((H <? Player.y p) = false) as -> by (apply Qltb_ge; exact Hy));
      reflexivity.
  - apply stomps_false in Hc. rewrite Hc. cbn [fst snd].
    destruct (enemy_sweep_not_falling pre (resetPlayer canvas p)
                (reset_not_falling p)) as [Hpre _].
    pose proof (enemy_sweep_at_spawn pre (resetPlayer canvas p)) as Hend.
    destruct (enemy_sweep canvas (resetPlayer canvas p) pre) as [p3 pre'].
    cbn [fst snd] in *. subst pre'.
    split; [ reflexivity | ].
    assert (at_spawn canvas (fall_out canvas (left_boundary p3))) as Hs.
    { apply at_spawn_end_of_tick, Hend. repeat split. }
    split; [ exact Hs | apply Hs ].
Qed.

(** ** Stomp or hit, in the game *)

Lemma Forall_sublist_of {A : Type} (P : A -> Prop) (l1 l2 : list A) :
  l1 `sublist_of` l2 -> Forall P l2 -> Forall P l1.
Proof.
  induction 1 as [| x l1 l2 _ IH | x l1 l2 _ IH]; intros Hl2.
  - constructor.
  - apply Forall_cons in Hl2. destruct Hl2 as [Hx Hl2].
    constructor; [ exact Hx | apply IH; exact Hl2 ].
  - apply Forall_cons in Hl2. destruct Hl2 as [_ Hl2]. apply IH. exact Hl2.
Qed.

Lemma ForallOrdPairs_sublist {A : Type} (R : A -> A -> Prop)
    (l1 l2 : list A) :
  l1 `sublist_of` l2 -> ForallOrdPairs R l2 -> ForallOrdPairs R l1.
Proof.
  induction 1 as [| x l1 l2 Hs IH | x l1 l2 Hs IH]; intros Hl2.
  - constructor.
  - inversion Hl2 as [| ? ? Hx Hrest]; subst.
    constructor; [ | apply IH; exact Hrest ].
    apply (Forall_sublist_of _ _ _ Hs). exact Hx.
  - inversion Hl2 as [| ? ? _ Hrest]; subst. apply IH. exact Hrest.
Qed.

Lemma lanes_apart_sym (w : Q) (a b : Enemy.t) :
  lanes_apart w a b -> lanes_apart w b a.
Proof. unfold lanes_apart. tauto. Qed.

Lemma lane_move (e : Enemy.t) :
  lane_lo (enemy_move e) == lane_lo e /\ lane_hi (enemy_move e) == lane_hi e.
Proof.
  unfold lane_lo, lane_hi.
  destruct (enemy_move_fixed e) as (_ & _ & _ & -> & ->).
  rewrite enemy_move_speed. split; reflexivity.
Qed.

Lemma lanes_apart_move (w : Q) (a b : Enemy.t) :
  lanes_apart w a b -> lanes_apart w (enemy_move a) (enemy_move b).
Proof.
  unfold lanes_apart.
  destruct (lane_move a) as [-> ->]. destruct (lane_move b) as [-> ->].
  tauto.
Qed.

Lemma ForallOrdPairs_map_move (w : Q) (l : list Enemy.t) :
  ForallOrdPairs (lanes_apart w) l ->
  ForallOrdPairs (lanes_apart w) (map enemy_move l).
Proof.
  induction 1 as [| a l Ha _ IH]; simpl; [ constructor | ].
  constructor; [ | exact IH ]. clear IH.
  induction Ha as [| b l' Hab _ IHa]; simpl; [ constructor | ].
  constructor; [ apply lanes_apart_move; exact Hab | exact IHa ].
Qed.

(** In a list whose members are pairwise related by a symmetric
    relation, each member is related to all the others. *)
Lemma ForallOrdPairs_middle {A : Type} (R : A -> A -> Prop)
    (pre suf : list A) (e : A) :
  (forall a b, R a b -> R b a) ->
  ForallOrdPairs R (pre ++ e :: suf) ->
  Forall (fun a => R a e) pre /\ Forall (fun a => R a e) suf.
Proof.
  intros Hsym. induction pre as [|a pre IH]; simpl; intros Hl.
  - inversion Hl as [| ? ? He _]; subst. split; [ constructor | ].
    eapply Forall_impl; [ exact He | ]. intros b. apply Hsym.
  - inversion Hl as [| ? ? Ha Hrest]; subst.
    destruct (IH Hrest) as [Hpre Hsuf]. split; [ | exact Hsuf ].
    constructor; [ | exact Hpre ].
    apply Forall_app in Ha. destruct Ha as [_ Ha].
    apply Forall_cons in Ha. apply Ha.
Qed.

Lemma createEnemies_arena :
  Forall (fun e => on_patrol e = true /\ Enemy.y e + Enemy.height e <= H)
    (createEnemies canvas)
  /\ ForallOrdPairs (lanes_apart 40) (createEnemies canvas).
Proof.
  unfold createEnemies. split.
  - repeat constructor; simpl; lra.
  - assert (forall a b : Enemy.t,
              lane_hi a + 40 <= lane_lo b -> lanes_apart 40 a b) as Hleft
      by (intros a b Hab; left; exact Hab).
    constructor; [ | constructor; [ | constructor; constructor ] ].
    + constructor; [ | constructor; [ | constructor ] ];
        apply Hleft; vm_compute; discriminate.
    + constructor; [ | constructor ]; apply Hleft; vm_compute; discriminate.
Qed.

Lemma reachable_arena (g : Game) : reachable canvas g -> arena canvas g.
Proof.
  induction 1 as [| k g _ (Hw & Hall & Hpairs)].
  - split; [ reflexivity | apply createEnemies_arena ].
  - destruct (update_player_size k g) as [Hw' _].
    unfold arena. rewrite Hw', update_enemies.
    split; [ exact Hw | ]. split.
    + unfold enemy_phase. apply enemy_loop_enemies; [ | exact Hall ].
      intros e [Hp Hy]. destruct (enemy_move_fixed e) as (-> & -> & _).
      split; [ apply enemy_move_on_patrol; exact Hp | exact Hy ].
    + rewrite enemy_phase_sweep.
      eapply ForallOrdPairs_sublist; [ apply enemy_sweep_sublist | ].
      apply ForallOrdPairs_map_move. exact Hpairs.
Qed.

(** A player 40 wide that touches an enemy cannot touch another one
    that patrols more than 40 away. *)
Lemma apart_no_overlap (p : Player.t) (a e : Enemy.t) :
  Player.width p = 40 ->
  on_patrol a = true -> on_patrol e = true ->
  lanes_apart 40 a e ->
  overlaps p (enemy_move e) = true ->
  overlaps p (enemy_move a) = false.
Proof.
  intros Hw Ha He Hap Ho.
  apply enemy_move_on_patrol, on_patrol_spec in Ha.
  apply enemy_move_on_patrol, on_patrol_spec in He.
  apply lanes_apart_move in Hap. unfold lanes_apart, lane_lo, lane_hi in Hap.
  destruct Ha as (_ & Ha1 & Ha2 & _). destruct He as (_ & He1 & He2 & _).
  destruct (overlaps p (enemy_move a)) eqn:E; [ exfalso | reflexivity ].
  unfold overlaps in Ho, E. qprop. rewrite Hw in *.
  destruct Hap; lra.
Qed.

(** C2.  In every state the game reaches, take a tick and an enemy [e]
    of the collection whose box, once [e] has moved, overlaps the
    player's box as the platform step of the tick left it.  If vy > 0
    and [y + height - vy] is at or above the enemy's top, the tick ends
    with [e] removed from the collection and the player's vy equal to
    [JUMP_FORCE / 2]; otherwise (vy <= 0, or the earlier bottom edge
    below the enemy's top) the tick ends with the player reset to the
    spawn point, x = 100, and [e] still in the collection.  All the
    other enemies make their move and stay. *)
Theorem stomp_or_hit_in_game (k : Keys.t) (g : Game)
    (pre suf : list Enemy.t) (e : Enemy.t) :
  reachable canvas g ->
  enemies g = pre ++ e :: suf ->
  let p := player_phase k g in
  let e' := enemy_move e in
  overlaps p e' = true ->
  (0 < Player.vy p
   /\ Player.y p + Player.height p - Player.vy p <= Enemy.y e' ->
     enemies (update canvas k g) = map enemy_move pre ++ map enemy_move suf
     /\ Player.vy (player (update canvas k g)) = JUMP_FORCE / 2)
  /\ (Player.vy p <= 0
      \/ Enemy.y e' < Player.y p + Player.height p - Player.vy p ->
     enemies (update canvas k g)
     = map enemy_move pre ++ e' :: map enemy_move suf
     /\ at_spawn canvas (player (update canvas k g))
     /\ Player.x (player (update canvas k g)) = 100).
Proof.
  intros Hreach Hes p e' Ho. subst e'.
  destruct (reachable_arena g Hreach) as (Hw & Hall & Hpairs).
  rewrite Hes in Hall, Hpairs.
  destruct (ForallOrdPairs_middle _ pre suf e (lanes_apart_sym 40) Hpairs)
    as [Hpre Hsuf].
  apply Forall_app in Hall. destruct Hall as [Apre Hall].
  apply Forall_cons in Hall. destruct Hall as [[Pe Ye] Asuf].
  assert (Player.width p = 40) as Hwp.
  { subst p. destruct (player_phase_fields k g) as (_ & _ & -> & _).
    destruct (takeoff_fields k g) as (_ & _ & -> & _). exact Hw. }
  assert (forall l, Forall (fun a => on_patrol a = true
                       /\ Enemy.y a + Enemy.height a <= H) l ->
                    Forall (fun a => lanes_apart 40 a e) l ->
                    Forall (fun a => overlaps p (enemy_move a) = false) l)
    as Hclear.
  { intros l Hl1 Hl2. induction Hl1 as [| a l [Pa _] _ IH]; [ constructor | ].
    apply Forall_cons in Hl2. destruct Hl2 as [Hae Hl2].
    constructor; [ | apply IH; exact Hl2 ].
    apply (apart_no_overlap p a e); assumption. }
  pose proof (Hclear suf Asuf Hsuf) as Fsuf.
  pose proof (Hclear pre Apre Hpre) as Fpre.
  assert (Player.y p <= H) as Hy.
  { destruct (enemy_move_fixed e) as (Ey & Eh & _).
    unfold overlaps in Ho. qprop. rewrite Ey, Eh in *. lra. }
  pose proof (stomp_or_hit_in_tick k g pre suf e Hes) as Htick.
  cbv zeta in Htick. fold p in Htick.
  rewrite enemy_phase_sweep, (enemy_sweep_no_contact suf p Fsuf) in Htick.
  cbn [fst snd] in Htick. specialize (Htick Ho).
  destruct Htick as [Hstomp Hhit]. split; intros Hc.
  - destruct (Hstomp Hc) as (Hen & _ & _ & Hv).
    split; [ exact Hen | apply Hv; assumption ].
  - exact (Hhit Hc).
Qed.

End Further.

(** ** Keyboard *)

Lemma key_among_cases (key : string) :
  (key_among key left_keys = true /\ key_among key right_keys = false
   /\ key_among key up_keys = false)
  \/ (key_among key left_keys = false /\ key_among key right_keys = true
      /\ key_among key up_keys = false)
  \/ (key_among key left_keys = false /\ key_among key right_keys = false
      /\ key_among key up_keys = true)
  \/ (key_among key left_keys = false /\ key_among key right_keys = false
      /\ key_among key up_keys = false).
Proof.
  unfold key_among, left_keys, right_keys, up_keys. cbn [existsb].
  repeat match goal with
  | |- context [ String.eqb key ?s ] =>
      destruct (String.eqb_spec key s) as [-> | _]
  end; cbn; tauto.
Qed.

Lemma same_control_cases (k1 k2 : string) :
  same_control k1 k2 = true ->
  (key_among k1 left_keys = true /\ key_among k2 left_keys = true)
  \/ (key_among k1 right_keys = true /\ key_among k2 right_keys = true)
  \/ (key_among k1 up_keys = true /\ key_among k2 up_keys = true).
Proof.
  unfold same_control. cbn [existsb].
  rewrite !orb_true_iff, !andb_true_iff. intros [? | [? | [? | ?]]];
    [ tauto | tauto | tauto | discriminate ].
Qed.

(** X13.  Releasing a key undoes pressing it, and the flags do not
    count keys: when two names are bound to the same control (say [a]
    and [ArrowLeft]), releasing either one clears the flag even if the
    other is still down, and pressing one while the other is down
    changes nothing. *)
Theorem release_undoes_press (k1 k2 : string) (keys : Keys.t) :
  same_control k1 k2 = true ->
  handleKeyUp k1 (fst (handleKeyDown k2 keys)) = handleKeyUp k1 keys
  /\ fst (handleKeyDown k1 (fst (handleKeyDown k2 keys)))
     = fst (handleKeyDown k2 keys)
  /\ handleKeyUp k1 (fst (handleKeyDown k2 Keys.none)) = Keys.none.
Proof.
  intros Hsame. apply same_control_cases in Hsame.
  unfold handleKeyUp, handleKeyDown.
  destruct (key_among_cases k1) as [(L1 & R1 & U1) | [(L1 & R1 & U1)
    | [(L1 & R1 & U1) | (L1 & R1 & U1)]]];
  destruct (key_among_cases k2) as [(L2 & R2 & U2) | [(L2 & R2 & U2)
    | [(L2 & R2 & U2) | (L2 & R2 & U2)]]];
  rewrite L1, R1, U1, L2, R2, U2 in *;
  destruct Hsame as [[? ?] | [[? ?] | [? ?]]]; try discriminate;
  cbn; rewrite ?L1, ?R1, ?U1; repeat split.
Qed.

(** X14.  Each flag answers to its own key names only.  A name outside
    the seven bound ones (a capital [A], say) changes nothing on press
    or release; a bound name changes no flag but its own; and the
    browser's default action is suppressed exactly when a jump key goes
    down. *)
Theorem keys_answer_to_their_names (key : string) (keys : Keys.t) :
  snd (handleKeyDown key keys) = key_among key up_keys
  /\ (key_among key (left_keys ++ right_keys ++ up_keys) = false ->
      handleKeyDown key keys = (keys, false) /\ handleKeyUp key keys = keys)
  /\ (key_among key left_keys = false ->
      Keys.left (fst (handleKeyDown key keys)) = Keys.left keys
      /\ Keys.left (handleKeyUp key keys) = Keys.left keys)
  /\ (key_among key right_keys = false ->
      Keys.right (fst (handleKeyDown key keys)) = Keys.right keys
      /\ Keys.right (handleKeyUp key keys) = Keys.right keys)
  /\ (key_among key up_keys = false ->
      Keys.up (fst (handleKeyDown key keys)) = Keys.up keys
      /\ Keys.up (handleKeyUp key keys) = Keys.up keys).
Proof.
  assert (key_among key (left_keys ++ right_keys ++ up_keys)
          = key_among key left_keys || key_among key right_keys
            || key_among key up_keys) as Hall.
  { unfold key_among. rewrite !existsb_app, orb_assoc. reflexivity. }
  rewrite Hall. unfold handleKeyUp, handleKeyDown.
  destruct (key_among_cases key) as [(L & R & U) | [(L & R & U)
    | [(L & R & U) | (L & R & U)]]];
    rewrite L, R, U;
    cbn; repeat split; intros; try discriminate; reflexivity.
Qed.

(** ** Rendering *)

Section Rendering.

Variable canvas : Canvas.t.

Local Abbreviation H := (Canvas.height canvas).
Local Abbreviation W := (Canvas.width canvas).

Lemma ctx_calls_app (c : Ctx) (ops1 ops2 : list CanvasOp) :
  ctx_calls c (ops1 ++ ops2)
  = let '(c1, m1) := ctx_calls c ops1 in
    let '(c2, m2) := ctx_calls c1 ops2 in
    (c2, m1 ++ m2).
Proof.
  revert c. induction ops1 as [|op ops1 IH]; intros c; simpl.
  - destruct (ctx_calls c ops2). reflexivity.
  - destruct (ctx_call c op) as [c1 m1]. rewrite IH.
    destruct (ctx_calls c1 ops1) as [c2 m2].
    destruct (ctx_calls c2 ops2) as [c3 m3].
    rewrite app_assoc. reflexivity.
Qed.

(** A run of [fillRect] calls paints one rectangle each, in order, and
    leaves the context alone. *)
Lemma ctx_calls_fillRects {A : Type} (fx fy fw fh : A -> Q) (c : Ctx)
    (l : list A) :
  ctx_calls c (map (fun a => ctx_fillRect (fx a) (fy a) (fw a) (fh a)) l)
  = (c, map (fun a => filled (fillStyle c) (origin_x c + fx a)
                        (origin_y c + fy a) (fw a) (fh a)) l).
Proof.
  induction l as [|a l IH]; simpl; [ reflexivity | ].
  rewrite IH. reflexivity.
Qed.

(** X15.  One call of [draw], from any state of the context: the context
    is left exactly as it was found (the camera translation does not
    pile up from frame to frame), and what is painted is, in this order,
    the cleared and sky-filled canvas at the context's origin, then the
    player, the platforms and the enemies, each in its colour and each
    shifted left by the camera offset and not at all vertically. *)
Theorem draw_frame (c : Ctx) (g : Game) :
  let ox := origin_x c + - Camera.x (camera g) in
  let oy := origin_y c + 0 in
  ctx_calls c (draw canvas g)
  = (c,
     cleared (origin_x c + 0) (origin_y c + 0) W H
     :: filled "#87CEEB" (origin_x c + 0) (origin_y c + 0) W H
     :: filled "#FF0000" (ox + Player.x (player g)) (oy + Player.y (player g))
          (Player.width (player g)) (Player.height (player g))
     :: map (fun q => filled "#654321" (ox + Platform.x q)
                        (oy + Platform.y q) (Platform.width q)
                        (Platform.height q)) (platforms g)
     ++ map (fun e => filled "#8A2BE2" (ox + Enemy.x e) (oy + Enemy.y e)
                        (Enemy.width e) (Enemy.height e)) (enemies g)).
Proof.
  intros ox oy. destruct c as [cx cy col st]. unfold draw.
  cbn [app ctx_calls ctx_call origin_x origin_y fillStyle saved].
  rewrite ctx_calls_app, ctx_calls_fillRects.
  cbn [app ctx_calls ctx_call origin_x origin_y fillStyle saved].
  rewrite ctx_calls_app, ctx_calls_fillRects.
  cbn [app ctx_calls ctx_call origin_x origin_y fillStyle saved].
  rewrite !app_nil_r. reflexivity.
Qed.



End Rendering.

(** ** Further worked instances on the 1152 x 648 canvas *)

Lemma reachable_ticks (canvas : Canvas.t) (ks : list Keys.t) (g : Game) :
  reachable canvas g -> reachable canvas (ticks canvas ks g).
Proof.
  revert g. induction ks as [|k ks IH]; intros g Hg; [ exact Hg | ].
  cbn [ticks]. apply IH. constructor. exact Hg.
Qed.

(** The first frame: no enemy is anywhere near the player. *)
Lemma no_contact_tick_witness :
  enemies (update canvas720 Keys.none (init canvas720))
  = map enemy_move (createEnemies canvas720).
Proof.
  apply (no_contact_tick canvas720 Keys.none (init canvas720)).
  repeat constructor.
Defined.

(** A player coming down on the third platform of the level (top at
    498): the two ground platforms before it in the list do not catch
    it. *)
Lemma first_catch_wins_witness :
  Player.y (platform_collision (createPlatforms canvas720)
              (Player.mk 250 440 40 60 0 5 true))
  + Player.height (platform_collision (createPlatforms canvas720)
                     (Player.mk 250 440 40 60 0 5 true))
  == Platform.y (Platform.mk 200 (648 - 150) 150 20).
Proof.
  apply (first_catch_wins
           (take 2 (createPlatforms canvas720))
           (drop 3 (createPlatforms canvas720))
           (Platform.mk 200 (648 - 150) 150 20)
           (Player.mk 250 440 40 60 0 5 true)).
  - repeat constructor.
  - reflexivity.
Defined.

(** A jump from the ground of this canvas tops out at y = 398. *)
Lemma jump_apex_witness :
  Player.y (free_flight 24 (Player.mk 100 548 40 60 0 (-12) true))
  == 548 - 150.
Proof.
  apply (jump_apex (Player.mk 100 548 40 60 0 (-12) true)). reflexivity.
Defined.

(** Six frames on the ground, the jump key down on frames 2, 4 and 6. *)
Lemma jump_ignored_on_hover_frames_witness :
  ticks canvas720 (concat (repeat [Keys.none; jump_key] 3))
    (level720 resting_player)
  = ticks canvas720 (repeat Keys.none (2 * 3)) (level720 resting_player).
Proof.
  apply (jump_ignored_on_hover_frames canvas720 0 ground720
           (level720 resting_player)); reflexivity.
Defined.

(** Holding right from the start, the player walks into the gap in the
    ground and is reset at the end of frame 194; two frames later, with
    the jump key down, it stands at the spawn point. *)
Lemma respawn_lands_witness :
  Player.isJumping
    (player
       (update canvas720 jump_key
          (update canvas720 jump_key
             (ticks canvas720 (repeat (Keys.mk false true false) 194)
                (init canvas720)))))
  = false.
Proof.
  apply (respawn_lands canvas720
           (ticks canvas720 (repeat (Keys.mk false true false) 194)
              (init canvas720)) jump_key jump_key);
    try reflexivity.
  - apply reachable_ticks. constructor.
  - vm_compute. repeat split.
Defined.

(** [a] released while [ArrowLeft] is still down: left is released. *)
Lemma release_undoes_press_witness :
  handleKeyUp "a" (fst (handleKeyDown "ArrowLeft" (Keys.mk true false true)))
  = handleKeyUp "a" (Keys.mk true false true).
Proof.
  apply (release_undoes_press "a" "ArrowLeft" (Keys.mk true false true)).
  reflexivity.
Defined.

(** A capital [A] (Shift held, or Caps Lock on) does nothing. *)
Lemma keys_answer_to_their_names_witness :
  handleKeyDown "A" Keys.none = (Keys.none, false)
  /\ handleKeyUp "A" Keys.none = Keys.none.
Proof.
  apply (keys_answer_to_their_names "A" Keys.none). reflexivity.
Defined.


(** ** An enemy's lane *)

(** X17.  However long it patrols, an enemy never moves vertically and
    never changes its size, its anchor, its range or its speed: a move
    changes x, and at most the sign of vx. *)
Theorem enemy_keeps_lane (n : nat) (e : Enemy.t) :
  Enemy.y (enemy_moves n e) = Enemy.y e
  /\ Enemy.height (enemy_moves n e) = Enemy.height e
  /\ Enemy.width (enemy_moves n e) = Enemy.width e
  /\ Enemy.startX (enemy_moves n e) = Enemy.startX e
  /\ Enemy.moveRange (enemy_moves n e) = Enemy.moveRange e
  /\ Qabs (Enemy.vx (enemy_moves n e)) == Qabs (Enemy.vx e).
Proof.
  induction n as [|n (Hy & Hh & Hw & Hs & Hm & Hv)].
  - repeat split.
  - cbn [enemy_moves].
    destruct (enemy_move_fixed (enemy_moves n e)) as (-> & -> & -> & -> & ->).
    rewrite enemy_move_speed.
    repeat split; assumption.
Qed.

(** ** Stomping the first enemy, and a canvas wider than the world *)

(** The keys of [stomp_plan], then one more frame to the right: the
    player comes down on the first enemy, which is removed, and leaves
    the frame with vy = JUMP_FORCE / 2. *)
Lemma stomp_or_hit_in_game_witness :
  enemies (update canvas720 (Keys.mk false true false)
             (ticks canvas720 stomp_plan (init canvas720)))
  = map enemy_move []
    ++ map enemy_move
         (drop 1 (enemies (ticks canvas720 stomp_plan (init canvas720))))
  /\ Player.vy (player (update canvas720 (Keys.mk false true false)
                          (ticks canvas720 stomp_plan (init canvas720))))
     = JUMP_FORCE / 2.
Proof.
  apply (stomp_or_hit_in_game canvas720 (Keys.mk false true false)
           (ticks canvas720 stomp_plan (init canvas720))
           []
           (drop 1 (enemies (ticks canvas720 stomp_plan (init canvas720))))
           (nth 0 (enemies (ticks canvas720 stomp_plan (init canvas720)))
              (patroller canvas720))).
  - apply reachable_ticks. constructor.
  - vm_compute. reflexivity.
  - vm_compute. reflexivity.
  - split; vm_compute; first [ reflexivity | discriminate ].
Defined.

(** Away from the states the game reaches a stomp need not be the last
    word of a tick: with a second enemy put in the way, the first enemy
    is stomped and removed, and the second one then resets the player. *)
Lemma stomp_then_hit_when_crowded :
  stomps (player_phase Keys.none crowded720)
    (enemy_move (patroller canvas720)) = true
  /\ overlaps (player_phase Keys.none crowded720)
       (enemy_move (patroller canvas720)) = true
  /\ length (enemies (update canvas720 Keys.none crowded720)) = 1%nat
  /\ at_spawn canvas720 (player (update canvas720 Keys.none crowded720)).
Proof.
  split; [ reflexivity | ]. split; [ reflexivity | ].
  split; [ reflexivity | ]. vm_compute. repeat split.
Qed.

(** C5 as stated fails on a canvas wider than the world.  On the canvas
    of a 3840-wide window (3456), after the first frame the camera
    offset is 3000 - 3456 = -456: it is negative, outside
    [[0, WORLD_WIDTH - viewport_width]] (an empty interval here), and it
    is not the clamped value either. *)
Lemma camera_negative_on_wide_canvas :
  Camera.x (camera (update canvas4k Keys.none (init canvas4k))) == -456
  /\ ~ (0 <= Camera.x (camera (update canvas4k Keys.none (init canvas4k)))
        <= WORLD_WIDTH - Canvas.width canvas4k)
  /\ ~ Camera.x (camera (update canvas4k Keys.none (init canvas4k)))
       == clamp 0 (WORLD_WIDTH - Canvas.width canvas4k)
            (Player.x (player (update canvas4k Keys.none (init canvas4k)))
             - Canvas.width canvas4k / 2
             + Player.width
                 (player (update canvas4k Keys.none (init canvas4k))) / 2).
Proof.
  split; [ reflexivity | ]. split.
  - intros [Hneg _]. revert Hneg. vm_compute. intros Hneg. apply Hneg.
    reflexivity.
  - vm_compute. discriminate.
Qed.
